(** * ForTest: a guarded editor for [.env] files (src/main.go)

    A shallow embedding of [main.go] and the properties of its key
    normaliser, value validator, store reader and writer, and of the
    confirmation protocol of [AddOrUpdateEnvVarSecure].

    Conventions of the embedding.
    - A Go [string] holds UTF-8 text.  Every library call of [main.go]
      ([strings.TrimSpace], [strings.ToUpper], [regexp.MatchString], and the
      prefix, suffix and split functions with ASCII arguments) acts on the
      decoded runes, so a string is the list of its code points, a rune
      being an [N].
    - Functions of the Go standard library are modelled in the modules
      [unicode], [strings], [regexp] and [bufio], from their documented
      behaviour; the Unicode case tables, which are data of the Go runtime,
      are a parameter ([CaseTables]).
    - The terminal, the file system and the order in which a [range] loop
      visits a map are the fields of a [World], threaded through the
      effectful functions.  The input is that of a terminal in canonical
      mode, read line by line (see [World]). *)

From Stdlib Require Import NArith List String Ascii Lia.
From stdpp Require Import gmap list.

Local Open Scope N_scope.

Abbreviation rune := N (only parsing).
Abbreviation gostring := (list N) (only parsing).

(** An ASCII literal as a Go string. *)
Definition go (s : string) : gostring :=
  map N_of_ascii (list_ascii_of_string s).
Arguments go s%_string.

(** ** Package [unicode] *)

Module unicode.

(** [unicode.IsSpace]: the Latin-1 cases of the switch, then the
    [White_Space] property outside Latin-1. *)
Definition IsSpace (r : rune) : bool :=
  if r <=? 0xFF then
    (r =? 9) || (r =? 10) || (r =? 11) || (r =? 12) || (r =? 13)
    || (r =? 32) || (r =? 0x85) || (r =? 0xA0)
  else
    (r =? 0x1680) || ((0x2000 <=? r) && (r <=? 0x200A))
    || (r =? 0x2028) || (r =? 0x2029) || (r =? 0x202F)
    || (r =? 0x205F) || (r =? 0x3000).

(** The case mappings of the runes above [MaxASCII] come from the table
    [unicode.CaseRanges] of the Go runtime. *)
Record CaseTables : Type := {
  upper_table : rune -> rune;
  lower_table : rune -> rune
}.

(** A table that leaves every rune above ASCII alone. *)
Definition caseless : CaseTables :=
  {| upper_table := fun r => r; lower_table := fun r => r |}.

Definition ToUpper (U : CaseTables) (r : rune) : rune :=
  if r <=? 0x7F then
    if (97 <=? r) && (r <=? 122) then r - 32 else r
  else upper_table U r.

Definition ToLower (U : CaseTables) (r : rune) : rune :=
  if r <=? 0x7F then
    if (65 <=? r) && (r <=? 90) then r + 32 else r
  else lower_table U r.

End unicode.

(** ** Package [unicode/utf8] *)

Module utf8.

(** Bytes of the UTF-8 encoding of one rune. *)
Definition RuneLen (r : rune) : N :=
  if r <? 0x80 then 1
  else if r <? 0x800 then 2
  else if r <? 0x10000 then 3
  else 4.

(** [len(s)]: the length of a string in bytes. *)
Fixpoint len (s : gostring) : N :=
  match s with
  | [] => 0
  | r :: s' => RuneLen r + len s'
  end.

End utf8.

(** ** Package [strings] *)

Module strings.

Fixpoint TrimLeftFunc (s : gostring) (f : rune -> bool) : gostring :=
  match s with
  | [] => []
  | r :: s' => if f r then TrimLeftFunc s' f else s
  end.

Fixpoint TrimRightFunc (s : gostring) (f : rune -> bool) : gostring :=
  match s with
  | [] => []
  | r :: s' =>
      match TrimRightFunc s' f with
      | [] => if f r then [] else [r]
      | t => r :: t
      end
  end.

Definition TrimFunc (s : gostring) (f : rune -> bool) : gostring :=
  TrimRightFunc (TrimLeftFunc s f) f.

Definition TrimSpace (s : gostring) : gostring :=
  TrimFunc s unicode.IsSpace.

Definition HasPrefix (s prefix : gostring) : bool :=
  (length prefix <=? length s)%nat
  && bool_decide (take (length prefix) s = prefix).

Definition HasSuffix (s suffix : gostring) : bool :=
  (length suffix <=? length s)%nat
  && bool_decide (drop (length s - length suffix) s = suffix).

(** [strings.Index]: where [substr] first occurs in [s]. *)
Fixpoint Index (s substr : gostring) : option nat :=
  if HasPrefix s substr then Some 0%nat
  else match s with
       | [] => None
       | _ :: s' => S <$> Index s' substr
       end.

(** [strings.SplitN] for a separator that is not empty and [n >= 0]. *)
Fixpoint SplitN (s sep : gostring) (n : nat) : list gostring :=
  match n with
  | 0%nat => []
  | 1%nat => [s]
  | S n' =>
      match Index s sep with
      | None => [s]
      | Some i => take i s :: SplitN (drop (i + length sep) s) sep n'
      end
  end.

(** The scan of [strings.Replace]: [skip] runes of a match just replaced
    are still to be passed over. *)
Fixpoint replace_from (skip : nat) (s old new : gostring) : gostring :=
  match s with
  | [] => []
  | r :: s' =>
      match skip with
      | S k => replace_from k s' old new
      | 0%nat =>
          if HasPrefix s old
          then new ++ replace_from (length old - 1) s' old new
          else r :: replace_from 0 s' old new
      end
  end.

(** [strings.ReplaceAll]; an empty [old] matches before every rune and
    at the end. *)
Definition ReplaceAll (s old new : gostring) : gostring :=
  match old with
  | [] => new ++ concat (map (fun r => r :: new) s)
  | _ => replace_from 0 s old new
  end.

Definition ToUpper (U : unicode.CaseTables) (s : gostring) : gostring :=
  map (unicode.ToUpper U) s.

Definition ToLower (U : unicode.CaseTables) (s : gostring) : gostring :=
  map (unicode.ToLower U) s.

Fixpoint Join (elems : list gostring) (sep : gostring) : gostring :=
  match elems with
  | [] => []
  | [e] => e
  | e :: rest => e ++ sep ++ Join rest sep
  end.

End strings.

(** ** Package [regexp] *)

Module regexp.

(** The fragment of RE2 syntax that the two patterns of [main.go] use. *)
Inductive regex : Type :=
| Void                                   (* matches nothing *)
| Eps                                    (* the empty string *)
| AnyRune
| Class (ranges : list (rune * rune))    (* [a-bc-d...] *)
| Cat (r1 r2 : regex)
| Alt (r1 r2 : regex)
| Star (r : regex).

Definition Plus (r : regex) : regex := Cat r (Star r).

Fixpoint Lit (s : gostring) : regex :=
  match s with
  | [] => Eps
  | c :: s' => Cat (Class [(c, c)]) (Lit s')
  end.

(** A pattern: is it anchored by [^], what is its body, is it anchored
    by [$] (without the [m] flag, the end of the text). *)
Record pattern : Type := {
  anchor_begin : bool;
  body : regex;
  anchor_end : bool
}.

Definition in_class (ranges : list (rune * rune)) (c : rune) : bool :=
  existsb (fun lh => (fst lh <=? c) && (c <=? snd lh)) ranges.

Fixpoint nullable (r : regex) : bool :=
  match r with
  | Void | AnyRune | Class _ => false
  | Eps | Star _ => true
  | Cat r1 r2 => nullable r1 && nullable r2
  | Alt r1 r2 => nullable r1 || nullable r2
  end.

(** Brzozowski derivative by one rune. *)
Fixpoint deriv (c : rune) (r : regex) : regex :=
  match r with
  | Void | Eps => Void
  | AnyRune => Eps
  | Class ranges => if in_class ranges c then Eps else Void
  | Cat r1 r2 =>
      if nullable r1
      then Alt (Cat (deriv c r1) r2) (deriv c r2)
      else Cat (deriv c r1) r2
  | Alt r1 r2 => Alt (deriv c r1) (deriv c r2)
  | Star r1 => Cat (deriv c r1) (Star r1)
  end.

Fixpoint full_match (r : regex) (s : gostring) : bool :=
  match s with
  | [] => nullable r
  | c :: s' => full_match (deriv c r) s'
  end.

(** [regexp.MatchString]: does some substring of [s] match; the anchors
    pin the substring to the ends of [s]. *)
Definition MatchString (p : pattern) (s : gostring) : bool :=
  full_match
    (Cat (if anchor_begin p then Eps else Star AnyRune)
         (Cat (body p) (if anchor_end p then Eps else Star AnyRune)))
    s.

(** The language of a regular expression. *)
Inductive lang : regex -> gostring -> Prop :=
| lang_eps : lang Eps []
| lang_any c : lang AnyRune [c]
| lang_class ranges c : in_class ranges c = true -> lang (Class ranges) [c]
| lang_cat r1 r2 s1 s2 : lang r1 s1 -> lang r2 s2 -> lang (Cat r1 r2) (s1 ++ s2)
| lang_alt_l r1 r2 s : lang r1 s -> lang (Alt r1 r2) s
| lang_alt_r r1 r2 s : lang r2 s -> lang (Alt r1 r2) s
| lang_star_nil r : lang (Star r) []
| lang_star_cons r s1 s2 :
    lang r s1 -> lang (Star r) s2 -> lang (Star r) (s1 ++ s2).

End regexp.

(** ** Package [bufio] *)

Module bufio.

(** [Reader.ReadString(delim)] on the unread input: the text up to and
    including the first [delim], or all that is left when there is none.
    The [io.EOF] that comes with the second case is dropped by every
    caller in [main.go] ([x, _ := reader.ReadString]). *)
Fixpoint ReadString (delim : rune) (input : gostring) : gostring * gostring :=
  match input with
  | [] => ([], [])
  | c :: rest =>
      if c =? delim then ([c], rest)
      else let (line, rest') := ReadString delim rest in (c :: line, rest')
  end.

Definition MaxScanTokenSize : N := 65536.

(** [dropCR]: one carriage return at the end of a line is not part of it. *)
Fixpoint dropCR (data : gostring) : gostring :=
  match data with
  | [] => []
  | [c] => if c =? 13 then [] else [c]
  | c :: rest => c :: dropCR rest
  end.

(** The lines of [data] as [ScanLines] cuts them: each ends at a newline,
    and the text after the last newline is a line when it is not empty. *)
Fixpoint raw_lines (data : gostring) : list gostring :=
  match data with
  | [] => []
  | c :: rest =>
      if c =? 10 then [] :: raw_lines rest
      else match raw_lines rest with
           | [] => [[c]]
           | l :: ls => (c :: l) :: ls
           end
  end.

(** Does a line fit the buffer of a [Scanner]: the buffer grows up to
    [MaxScanTokenSize] bytes and has to hold the line before its end is
    seen, else [Scan] stops with [ErrTooLong]. *)
Definition fits (line : gostring) : bool :=
  utf8.len line <? MaxScanTokenSize.

Fixpoint while_fits (ls : list gostring) : list gostring :=
  match ls with
  | [] => []
  | l :: ls' => if fits l then l :: while_fits ls' else []
  end.

(** What [scanner.Text()] is at the successive iterations of
    [for scanner.Scan() { ... }] over a file that holds [data]. *)
Definition Lines (data : gostring) : list gostring :=
  map dropCR (while_fits (raw_lines data)).

End bufio.

(** ** The world around the process *)

(** The two errors that [main.go] makes with [fmt.Errorf], and the errors
    of package [os]. *)
Inductive error : Type :=
| ErrInvalidCharacters      (* the key has runes other than Latin letters *)
| ErrForbiddenScript        (* the value has Cyrillic letters *)
| ErrIO (errno : N).

(** How a call of [os.WriteFile] fails: at its [OpenFile], before the file is
    touched, or later, the file truncated and [written] runes in it. *)
Inductive write_fault : Type :=
| FailsAtOpen (errno : N)
| FailsAtWrite (errno : N) (written : nat).

Inductive prompt : Type :=
| PromptKey                 (* "Введите ключ переменной ..." *)
| PromptValue.              (* "Введите значение переменной ..." *)

(** What the program prints, one constructor for each print statement. *)
Inductive event : Type :=
| EvBanner
| EvPrompt (p : prompt)
| EvError (e : error)
| EvKeyExists (originalInput : gostring)
| EvCancel
| EvEnterCurrent (attempt maxAttempts : nat)
| EvMismatch
| EvTooManyAttempts
| EvUpdateError (e : error)
| EvAdded
| EvUpdated.

(** - [stdin]: what the user will type.  [os.Stdin] is a terminal in
      canonical mode: a read delivers one line, so the [bufio.Reader] that
      a function makes holds nothing beyond the line it returned, and
      nothing is lost with it when the function returns.  On a pipe or a
      file a reader may read ahead, up to 4096 bytes, and the next reader
      starts after what it took; such input is outside this model.  What a
      single reader returns, line after line, is the same in both cases.
    - [files]: the contents of the files that exist.
    - [open_faults], [write_faults]: the paths on which [os.OpenFile] for
      reading and [os.WriteFile] fail.
    - [map_seed]: the choices of the runtime for the order of a [range]
      over a map.
    - [writes]: the calls of [os.WriteFile] so far, with their data. *)
Record World : Type := mkWorld {
  stdin : gostring;
  stdout : list event;
  files : gmap gostring gostring;
  open_faults : gmap gostring N;
  write_faults : gmap gostring write_fault;
  map_seed : list nat;
  writes : list (gostring * gostring)
}.

Definition set_stdin (w : World) (s : gostring) : World :=
  mkWorld s (stdout w) (files w) (open_faults w) (write_faults w)
          (map_seed w) (writes w).

Definition set_stdout (w : World) (o : list event) : World :=
  mkWorld (stdin w) o (files w) (open_faults w) (write_faults w)
          (map_seed w) (writes w).

Definition set_files (w : World) (f : gmap gostring gostring) : World :=
  mkWorld (stdin w) (stdout w) f (open_faults w) (write_faults w)
          (map_seed w) (writes w).

Definition set_writes (w : World) (l : list (gostring * gostring)) : World :=
  mkWorld (stdin w) (stdout w) (files w) (open_faults w) (write_faults w)
          (map_seed w) l.

(** Effectful code is a function of the world. *)
Definition IO (A : Type) : Type := World -> A * World.

Definition bind {A B} (m : IO A) (k : A -> IO B) : IO B :=
  fun w => let (a, w') := m w in k a w'.

#[global] Instance IO_ret : MRet IO := fun A a w => (a, w).
#[global] Instance IO_bind : MBind IO := fun A B k m => bind m k.

Notation "'let*' x ':=' m 'in' k" := (bind m (fun x => k))
  (at level 10, x pattern, m at level 100, k at level 200, only parsing).

(** [fmt.Print] and the like. *)
Definition print (e : event) : IO unit :=
  fun w => (tt, set_stdout w (stdout w ++ [e])).

(** [reader.ReadString('\n')] on a reader over [os.Stdin], a terminal: the
    next line, which is all that the reader took from the terminal. *)
Definition ReadLine : IO gostring :=
  fun w => let (line, rest) := bufio.ReadString 10 (stdin w) in
           (line, set_stdin w rest).

(** The order in which a [range] loop visits [l]: each number of [seed]
    picks the next element among those not visited yet, and when [seed]
    runs out the rest comes as it stands. *)
Fixpoint range_order {A} (seed : list nat) (l : list A) : list A :=
  match seed with
  | [] => l
  | n :: seed' =>
      match l !! (n mod length l)%nat with
      | None => l
      | Some x => x :: range_order seed' (delete (n mod length l)%nat l)
      end
  end.

(** [for k, v := range m]: the entries in the order of this run. *)
Definition range (m : gmap gostring gostring) : IO (list (gostring * gostring)) :=
  fun w => (range_order (map_seed w) (map_to_list m), w).

Module os.

(** [os.OpenFile(name, O_RDONLY|O_CREATE, 0644)] and the text that the
    file then yields: an absent file is created empty. *)
Definition OpenFile (name : gostring) : IO (gostring * option error) :=
  fun w =>
    match open_faults w !! name with
    | Some errno => (([], Some (ErrIO errno)), w)
    | None =>
        match files w !! name with
        | Some data => ((data, None), w)
        | None => (([], None), set_files w (<[name := []]> (files w)))
        end
    end.

(** [os.WriteFile(name, data, 0644)]: open with [O_TRUNC], write, close. *)
Definition WriteFile (name data : gostring) : IO (option error) :=
  fun w =>
    let w1 := set_writes w (writes w ++ [(name, data)]) in
    match write_faults w !! name with
    | None => (None, set_files w1 (<[name := data]> (files w)))
    | Some (FailsAtOpen errno) => (Some (ErrIO errno), w1)
    | Some (FailsAtWrite errno written) =>
        (Some (ErrIO errno),
         set_files w1 (<[name := take written data]> (files w)))
    end.

End os.

(** ** The program *)

Section Program.

Variable U : unicode.CaseTables.

(** [^[A-Z_]+$] *)
Definition key_pattern : regexp.pattern :=
  {| regexp.anchor_begin := true;
     regexp.body := regexp.Plus (regexp.Class [(65, 90); (95, 95)]);
     regexp.anchor_end := true |}.

(** [[а-яА-ЯёЁ]]: U+0430-U+044F, U+0410-U+042F, U+0451, U+0401. *)
Definition cyrillic_pattern : regexp.pattern :=
  {| regexp.anchor_begin := false;
     regexp.body :=
       regexp.Class [(0x430, 0x44F); (0x410, 0x42F);
                     (0x451, 0x451); (0x401, 0x401)];
     regexp.anchor_end := false |}.

Definition formatAndValidateKey (input : gostring) : gostring * option error :=
  let input := strings.TrimSpace input in
  let input := strings.ReplaceAll input (go " ") (go "_") in
  let input := strings.ToUpper U input in
  let match_ := regexp.MatchString key_pattern input in
  if negb match_ then ([], Some ErrInvalidCharacters)
  else
    let input :=
      if negb (strings.HasSuffix input (go "_KEY"))
      then input ++ go "_KEY" else input in
    (input, None).

Definition validateValue (input : gostring) : gostring * option error :=
  let input := strings.TrimSpace input in
  let match_ := regexp.MatchString cyrillic_pattern input in
  if match_ then ([], Some ErrForbiddenScript)
  else (input, None).

(** The [for { ... }] of [promptValidInput] has no exit but its [return]:
    [fuel] bounds the iterations, and [None] is a run that used them up. *)
Fixpoint promptValidInput (fuel : nat) (promptText : prompt)
    (validator : gostring -> gostring * option error) : IO (option gostring) :=
  match fuel with
  | O => mret None
  | S fuel' =>
      print (EvPrompt promptText) ;;
      let* input := ReadLine in
      let input := strings.TrimSpace input in
      let (validated, err) := validator input in
      match err with
      | Some e =>
          print (EvError e) ;;
          promptValidInput fuel' promptText validator
      | None => mret (Some validated)
      end
  end.

(** The body of the loop of [readEnvFileToMap] on one line. *)
Definition scan_line (env : gmap gostring gostring) (line : gostring)
    : gmap gostring gostring :=
  if bool_decide (strings.TrimSpace line = []) || strings.HasPrefix line (go "#")
  then env
  else
    let parts := strings.SplitN line (go "=") 2 in
    if (length parts =? 2)%nat
    then <[strings.TrimSpace (nth 0 parts []) :=
             strings.TrimSpace (nth 1 parts [])]> env
    else env.

Definition readEnvFileToMap (filePath : gostring)
    : IO (gmap gostring gostring * option error) :=
  let env : gmap gostring gostring := ∅ in
  let* (file, err) := os.OpenFile filePath in
  match err with
  | Some e => mret (env, Some e)
  | None => mret (fold_left scan_line (bufio.Lines file) env, None)
  end.

(** [fmt.Sprintf("%s=%s", k, v)] *)
Definition Sprintf_kv (kv : gostring * gostring) : gostring :=
  fst kv ++ go "=" ++ snd kv.

Definition writeEnvMap (filePath : gostring) (envMap : gmap gostring gostring)
    : IO (option error) :=
  let* entries := range envMap in
  let newLines := map Sprintf_kv entries in
  os.WriteFile filePath (strings.Join newLines [10] ++ [10]).

Definition maxAttempts : nat := 3.

(** The loop [for attempts := 1; attempts <= maxAttempts; attempts++] with
    [left] iterations to go: [true] is its [return true], [false] is the
    loop running out. *)
Fixpoint attempts_loop (left attempts : nat) (currentValue : gostring) : IO bool :=
  match left with
  | O => mret false
  | S left' =>
      print (EvEnterCurrent attempts maxAttempts) ;;
      let* entered := ReadLine in
      let entered := strings.TrimSpace entered in
      if bool_decide (entered = currentValue) then mret true
      else
        print EvMismatch ;;
        attempts_loop left' (S attempts) currentValue
  end.

Definition promptOverwriteConfirmation (originalInput currentValue : gostring)
    : IO bool :=
  print (EvKeyExists originalInput) ;;
  let* confirm := ReadLine in
  let confirm := strings.ToLower U (strings.TrimSpace confirm) in
  if negb (bool_decide (confirm = go "yes")) then
    print EvCancel ;;
    mret false
  else
    let* matched := attempts_loop maxAttempts 1 currentValue in
    if matched then mret true
    else
      print EvTooManyAttempts ;;
      mret false.

(** The result is the triple [(added, updated, err)] of the source. *)
Definition AddOrUpdateEnvVarSecure (filePath originalInput key value : gostring)
    : IO (bool * bool * option error) :=
  let* (envMap, err) := readEnvFileToMap filePath in
  match err with
  | Some e => mret (false, false, Some e)
  | None =>
      match envMap !! key with
      | Some currentValue =>
          let* ok := promptOverwriteConfirmation originalInput currentValue in
          if negb ok then mret (false, false, None)
          else
            let envMap := <[key := value]> envMap in
            let* err := writeEnvMap filePath envMap in
            mret (false, true, err)
      | None =>
          let envMap := <[key := value]> envMap in
          let* err := writeEnvMap filePath envMap in
          mret (true, false, err)
      end
  end.

(** [main]; [None] when a prompt used up the [fuel]. *)
Definition main (fuel : nat) : IO (option unit) :=
  print EvBanner ;;
  let* o := promptValidInput fuel PromptKey (fun s => (s, None)) in
  match o with
  | None => mret None
  | Some originalKeyInput =>
      let (formattedKey, err) := formatAndValidateKey originalKeyInput in
      match err with
      | Some e => print (EvError e) ;; mret (Some tt)
      | None =>
          let* o := promptValidInput fuel PromptValue validateValue in
          match o with
          | None => mret None
          | Some value =>
              let* (added, updated, err) :=
                AddOrUpdateEnvVarSecure (go ".env") originalKeyInput
                                        formattedKey value in
              match err with
              | Some e => print (EvUpdateError e) ;; mret (Some tt)
              | None =>
                  if added then print EvAdded ;; mret (Some tt)
                  else if updated then print EvUpdated ;; mret (Some tt)
                  else mret (Some tt)
              end
          end
      end
  end.

End Program.

(** ** The specification's words

    The contracts of spec sections 4.1 and 4.2 and the patterns of its
    testable properties, written from the text of the specification, to be
    compared with the functions of the program. *)

Module spec.

(** "Trim leading/trailing whitespace": drop the white space in front,
    then, on the reversed text, the white space at the end. *)
Definition trim (s : gostring) : gostring :=
  let s := strings.TrimLeftFunc s unicode.IsSpace in
  rev (strings.TrimLeftFunc (rev s) unicode.IsSpace).

(** "uppercase A-Z or underscore" *)
Definition upper_or_underscore (c : rune) : bool :=
  ((65 <=? c) && (c <=? 90)) || (c =? 95).

(** "already end[s] with [_KEY]" *)
Definition ends_with_KEY (s : gostring) : bool :=
  match rev s with
  | y :: e :: k :: u :: _ => (u =? 95) && (k =? 75) && (e =? 69) && (y =? 89)
  | _ => false
  end.

(** Section 4.1, steps 1 to 5. *)
Definition normalize (U : unicode.CaseTables) (raw : gostring)
    : gostring * option error :=
  let s := trim raw in
  let s := map (fun c => if c =? 32 then 95 else c) s in
  let s := map (unicode.ToUpper U) s in
  if forallb upper_or_underscore s && negb (bool_decide (s = []))
  then (if ends_with_KEY s then s else s ++ go "_KEY", None)
  else ([], Some ErrInvalidCharacters).

(** "Cyrillic letter (basic Cyrillic block plus ё/Ё)": the letters
    U+0410 to U+044F, and U+0401 and U+0451. *)
Definition cyrillic_letter (c : rune) : bool :=
  ((0x410 <=? c) && (c <=? 0x44F)) || (c =? 0x401) || (c =? 0x451).

(** Section 4.2. *)
Definition validate (raw : gostring) : gostring * option error :=
  let s := trim raw in
  if existsb cyrillic_letter s then ([], Some ErrForbiddenScript)
  else (s, None).

Definition upper_or_underscore_class : regexp.regex :=
  regexp.Class [(65, 90); (95, 95)].

(** [^[A-Z_]+_KEY$], the pattern of section 8. *)
Definition canonical_pattern_plus : regexp.pattern :=
  {| regexp.anchor_begin := true;
     regexp.body :=
       regexp.Cat (regexp.Plus upper_or_underscore_class)
                  (regexp.Lit (go "_KEY"));
     regexp.anchor_end := true |}.

(** [^[A-Z_]*_KEY$]: "uppercase ASCII letters and underscores only, and
    ends with the literal suffix [_KEY]" (section 3). *)
Definition canonical_pattern : regexp.pattern :=
  {| regexp.anchor_begin := true;
     regexp.body :=
       regexp.Cat (regexp.Star upper_or_underscore_class)
                  (regexp.Lit (go "_KEY"));
     regexp.anchor_end := true |}.

(** The ASCII letters, digits and punctuation marks (the runes below 128
    of the Unicode categories L, Nd and P). *)
Definition ascii_letter_digit_punct (c : rune) : bool :=
  ((65 <=? c) && (c <=? 90)) || ((97 <=? c) && (c <=? 122))
  || ((48 <=? c) && (c <=? 57))
  || existsb (N.eqb c)
       [33; 34; 35; 37; 38; 39; 40; 41; 42; 44; 45; 46; 47; 58; 59; 63; 64;
        91; 92; 93; 95; 123; 125].

(** "keys/values contain no [=], [#]-prefix ambiguity, or embedded
    newlines" (section 8). *)
Definition plain (k v : gostring) : bool :=
  negb (bool_decide (61 ∈ k)) && negb (bool_decide (61 ∈ v))
  && negb (strings.HasPrefix k (go "#"))
  && negb (bool_decide (10 ∈ k)) && negb (bool_decide (10 ∈ v)).

(** The entries that a file keeps as they are: key and value are their own
    trimmed forms and have no newline, the key has no [=] and does not
    begin with [#], and the line [key=value] fits the line reader. *)
Definition storable (k v : gostring) : bool :=
  bool_decide (strings.TrimSpace k = k) && bool_decide (strings.TrimSpace v = v)
  && negb (bool_decide (61 ∈ k)) && negb (strings.HasPrefix k (go "#"))
  && negb (bool_decide (10 ∈ k)) && negb (bool_decide (10 ∈ v))
  && bufio.fits (k ++ 61 :: v).



(** "Serializes every entry as [KEY=VALUE] joined by a single newline,
    with a trailing newline at end of file" (section 4.4). *)
Definition file_text (entries : list (gostring * gostring)) : gostring :=
  strings.Join (map Sprintf_kv entries) [10] ++ [10].

(** What the user types at the next [n] prompts: the lines that a reader
    over [input] returns. *)
Fixpoint read_lines (n : nat) (input : gostring) : list gostring :=
  match n with
  | O => []
  | S n' =>
      let (line, rest) := bufio.ReadString 10 input in
      line :: read_lines n' rest
  end.

(** The lines [ls] as they are typed, a newline after each. *)
Definition typed (ls : list gostring) : gostring :=
  concat (map (fun l => l ++ [10]) ls).

(** Nothing of the store differs between two worlds: the files, the
    record of the writes, and what decides the next reads and writes. *)
Definition same_store (w w' : World) : Prop :=
  files w' = files w /\ writes w' = writes w
  /\ open_faults w' = open_faults w /\ write_faults w' = write_faults w
  /\ map_seed w' = map_seed w.

(** From [w] to [w'], the mapping [m] was handed to the writer, once,
    with result [err]: one write of its entries in some order, which is
    what the file holds if the write succeeded; [err] is the fault of the
    path, if it has one. *)
Definition saved (path : gostring) (m : gmap gostring gostring)
    (w w' : World) (err : option error) : Prop :=
  exists entries,
    entries ≡ₚ map_to_list m
    /\ writes w' = writes w ++ [(path, file_text entries)]
    /\ (err = None <-> write_faults w !! path = None)
    /\ (err = None -> files w' !! path = Some (file_text entries))
    /\ (forall e, err = Some e -> exists errno, e = ErrIO errno).

(** What the value prompt prints for the rejected lines [bad]: the
    prompt and the error, once for each. *)
Definition reasked (bad : list gostring) : list event :=
  concat (map (fun _ => [EvPrompt PromptValue; EvError ErrForbiddenScript]) bad).

(** The lines [ls] in a file with Windows line ends: a carriage return
    and a newline after each. *)
Definition typed_crlf (ls : list gostring) : gostring :=
  concat (map (fun l => l ++ [13; 10]) ls).

(** An entry as the reader leaves it: key and value trimmed, no [=] in
    the key, no newline in either. *)
Definition clean_entry (k v : gostring) : Prop :=
  strings.TrimSpace k = k /\ strings.TrimSpace v = v
  /\ (61 ∉ k) /\ (10 ∉ k) /\ (10 ∉ v).

(** What the confirmation prints for [n] attempts that miss, the first
    of them numbered [from]: the request and the mismatch, for each. *)
Definition missed (from n : nat) : list event :=
  concat (map (fun i => [EvEnterCurrent i maxAttempts; EvMismatch])
              (seq from n)).

(** An ASCII letter, an underscore or a space. *)
Definition ascii_word_rune (c : rune) : bool :=
  ((65 <=? c) && (c <=? 90)) || ((97 <=? c) && (c <=? 122))
  || (c =? 95) || (c =? 32).

End spec.

(** ** Worlds to run the program in *)

Module examples.

(** A store with two entries. *)
Definition m_ab : gmap gostring gostring :=
  {[ go "A_KEY" := go "1"; go "B" := go "2" ]}.

Definition file_ab : gostring := spec.typed [go "A_KEY=1"; go "B=2"].

Definition world (input file : gostring) : World :=
  mkWorld input [] {[ go ".env" := file ]} ∅ ∅ [1%nat] [].

(** The user confirms in capitals, misses the value once, then has it. *)
Definition w_update : World :=
  world (spec.typed [go "YES"; go "wrong"; go "1"]) file_ab.

(** The user confirms and misses the value three times. *)
Definition w_misses : World :=
  world (spec.typed [go "yes"; go "0"; go "2"; go "3"; go "1"]) file_ab.



(** Two values in Cyrillic ("пароль", "да"), then one in Latin. *)
Definition cyrillic_lines : list gostring :=
  [[0x43F; 0x430; 0x440; 0x43E; 0x43B; 0x44C]; [0x434; 0x430]].

Definition w_values : World :=
  mkWorld (spec.typed cyrillic_lines ++ go " ok " ++ 10 :: go "yes")
          [] ∅ ∅ ∅ [] [].

(** A file with a comment between the lines of a key, and one with the
    same lines and Windows line ends. *)
Definition lines_a3 : list gostring :=
  [go "A=1"; go "B=2"; go "A=3"; go "# A=4"].

Definition w_a3 : World := world [] (spec.typed lines_a3).

Definition w_a3_crlf : World := world [] (spec.typed_crlf lines_a3).

(** No file, nothing typed. *)
Definition w_fresh : World := mkWorld [] [] ∅ ∅ ∅ [] [].

(** The file cannot be opened. *)
Definition w_locked : World :=
  mkWorld (spec.typed [go "yes"]) [] {[ go ".env" := file_ab ]}
          {[ go ".env" := 13 ]} ∅ [] [].

(** Another file beside the store; the user says no. *)
Definition w_two_files : World :=
  mkWorld (spec.typed [go "no"]) []
          {[ go ".env" := file_ab; go "notes" := go "keep" ]} ∅ ∅ [] [].

(** The value stored is empty, and the input ends after the answer. *)
Definition w_empty_value : World :=
  world (spec.typed [go "yes"]) (spec.typed [go "A_KEY="]).

(** A file whose second line has 65536 bytes. *)
Definition long_line : gostring := go "B=" ++ repeat 120 (N.to_nat 65534).

Definition long_file : gostring :=
  spec.typed [go "A=1"] ++ long_line ++ 10 :: spec.typed [go "C=3"].

Definition w_long : World := world [] long_file.




End examples.

(** * Properties *)

(** ** Regular expressions: matching by derivatives decides the language *)

Module regexp_facts.
Import regexp.

#[local] Hint Constructors lang : core.

Lemma lang_nil_nullable r s : lang r s -> s = [] -> nullable r = true.
Proof.
  induction 1; intros Hs; simpl; try done.
  - apply app_eq_nil in Hs as [-> ->]. by rewrite IHlang1, IHlang2.
  - by rewrite IHlang.
  - rewrite IHlang by done. apply orb_true_r.
Qed.

Lemma nullable_lang r : nullable r = true <-> lang r [].
Proof.
  split; [| intros H; by eapply lang_nil_nullable].
  induction r; simpl; intros H; try done; auto.
  - apply andb_true_iff in H as [H1 H2].
    change (@nil N) with (@nil N ++ []). auto.
  - apply orb_true_iff in H as [H | H]; auto.
Qed.

Lemma lang_deriv r s0 :
  lang r s0 -> forall c s, s0 = c :: s -> lang (deriv c r) s.
Proof.
  induction 1; intros c0 s0 Hs; simpl; try done.
  - by simplify_eq.
  - simplify_eq. by rewrite H.
  - destruct s1 as [| c1 s1']; simpl in Hs.
    + subst s2. apply lang_nil_nullable in H; [| done]. rewrite H. eauto.
    + simplify_eq. destruct (nullable r1); eauto.
  - eauto.
  - eauto.
  - destruct s1 as [| c1 s1']; simpl in Hs.
    + by apply IHlang2.
    + simplify_eq. eauto.
Qed.

Lemma deriv_lang c r : forall s, lang (deriv c r) s -> lang r (c :: s).
Proof.
  induction r; simpl; intros s H.
  - inversion H.
  - inversion H.
  - inversion H; subst. auto.
  - destruct (in_class ranges c) eqn:E; inversion H; subst. auto.
  - destruct (nullable r1) eqn:E.
    + inversion H as [| | | | ? ? ? H1 | ? ? ? H2 | |]; subst.
      * inversion H1; subst. rewrite app_comm_cons. auto.
      * apply nullable_lang in E.
        change (c :: s) with ([] ++ c :: s). auto.
    + inversion H; subst. rewrite app_comm_cons. auto.
  - inversion H; subst; auto.
  - inversion H; subst. rewrite app_comm_cons. auto.
Qed.

Theorem full_match_lang r s : full_match r s = true <-> lang r s.
Proof.
  revert r. induction s as [| c s IH]; intros r; simpl.
  - apply nullable_lang.
  - rewrite IH. split; [apply deriv_lang |].
    intros H. by eapply lang_deriv.
Qed.

Lemma lang_star_any s : lang (Star AnyRune) s.
Proof.
  induction s as [| c s IH]; [auto |].
  change (c :: s) with ([c] ++ s). auto.
Qed.

Lemma lang_star_class ranges s :
  lang (Star (Class ranges)) s <-> Forall (fun c => in_class ranges c = true) s.
Proof.
  split.
  - remember (Star (Class ranges)) as r eqn:Hr. induction 1; try done.
    simplify_eq. inversion H; subst. simpl. constructor; auto.
  - induction 1 as [| c s Hc _ IH]; [auto |].
    change (c :: s) with ([c] ++ s). auto.
Qed.

Lemma lang_lit l s : lang (Lit l) s <-> s = l.
Proof.
  revert s. induction l as [| c l IH]; intros s; simpl.
  - split; [by inversion 1 | intros ->; auto].
  - split.
    + inversion 1 as [| | | ? ? ? ? H1 H2 | | | |]; subst.
      apply IH in H2 as ->. inversion H1 as [| | ? ? Hc | | | | |]; subst.
      simpl in Hc. rewrite orb_false_r in Hc.
      apply andb_true_iff in Hc as [Hl Hh].
      apply N.leb_le in Hl, Hh. simpl. f_equal. lia.
    + intros ->. change (c :: l) with ([c] ++ l). constructor.
      * constructor. simpl. by rewrite N.leb_refl.
      * by apply IH.
Qed.

Lemma lang_eps_l r s : lang (Cat Eps r) s <-> lang r s.
Proof.
  split.
  - inversion 1 as [| | | ? ? ? ? H1 H2 | | | |]; subst. by inversion H1.
  - intros H. change s with ([] ++ s). auto.
Qed.

Lemma lang_eps_r r s : lang (Cat r Eps) s <-> lang r s.
Proof.
  split.
  - inversion 1 as [| | | ? ? ? ? H1 H2 | | | |]; subst.
    inversion H2. by rewrite app_nil_r.
  - intros H. rewrite <- (app_nil_r s). auto.
Qed.

(** An anchored pattern matches exactly the language of its body. *)
Lemma MatchString_anchored r s :
  MatchString {| anchor_begin := true; body := r; anchor_end := true |} s = true
  <-> lang r s.
Proof.
  unfold MatchString. simpl.
  by rewrite full_match_lang, lang_eps_l, lang_eps_r.
Qed.

(** An unanchored class matches when some rune of the text is in it. *)
Lemma MatchString_class ranges s :
  MatchString {| anchor_begin := false; body := Class ranges;
                 anchor_end := false |} s = true
  <-> Exists (fun c => in_class ranges c = true) s.
Proof.
  unfold MatchString. simpl. rewrite full_match_lang. split.
  - inversion 1 as [| | | ? ? s1 s23 _ H23 | | | |]; subst.
    inversion H23 as [| | | ? ? s2 s3 H2 _ | | | |]; subst.
    inversion H2; subst. apply Exists_app. right. by left.
  - intros H. apply Exists_exists in H as (c & Hin & Hc).
    apply list_elem_of_split in Hin as (s1 & s2 & ->).
    constructor; [apply lang_star_any |].
    change (c :: s2) with ([c] ++ s2).
    constructor; [by constructor | apply lang_star_any].
Qed.

End regexp_facts.

(** ** Package [strings] *)

Module strings_facts.
Import strings.

Section Trim.
Variable f : N -> bool.

Lemma TrimLeftFunc_snoc l r :
  TrimLeftFunc (l ++ [r]) f =
  match TrimLeftFunc l f with
  | [] => if f r then [] else [r]
  | t => t ++ [r]
  end.
Proof.
  induction l as [| a l IH]; simpl; [done |].
  by destruct (f a).
Qed.

(** Trimming on the right is trimming the reversed text on the left. *)
Lemma TrimRightFunc_rev s : TrimRightFunc s f = rev (TrimLeftFunc (rev s) f).
Proof.
  induction s as [| r s IH]; simpl; [done |].
  rewrite TrimLeftFunc_snoc, IH.
  destruct (TrimLeftFunc (rev s) f) as [| a t] eqn:E; simpl.
  - by destruct (f r).
  - rewrite rev_app_distr. simpl.
    destruct (rev t ++ [a]) eqn:E'; [| done].
    by destruct (rev t).
Qed.

Lemma TrimLeftFunc_cases s :
  TrimLeftFunc s f = [] \/
  exists c t, TrimLeftFunc s f = c :: t /\ f c = false.
Proof.
  induction s as [| r s IH]; simpl; [by left |].
  destruct (f r) eqn:E; [done |]. right. eauto.
Qed.

Lemma TrimLeftFunc_skip ws s :
  Forall (fun c => f c = true) ws -> TrimLeftFunc (ws ++ s) f = TrimLeftFunc s f.
Proof. induction 1 as [| c ws Hc _ IH]; simpl; [done |]. by rewrite Hc. Qed.

Lemma TrimLeftFunc_stop c s : f c = false -> TrimLeftFunc (c :: s) f = c :: s.
Proof. intros H. simpl. by rewrite H. Qed.

Lemma TrimRightFunc_head c s :
  f c = false -> exists t, TrimRightFunc (c :: s) f = c :: t.
Proof.
  intros H. simpl. rewrite H.
  destruct (TrimRightFunc s f); eauto.
Qed.

Lemma TrimRightFunc_idem s :
  TrimRightFunc (TrimRightFunc s f) f = TrimRightFunc s f.
Proof.
  induction s as [| r s IH]; simpl; [done |].
  destruct (TrimRightFunc s f) as [| a t] eqn:E.
  - destruct (f r) eqn:Er; simpl; [done |]. by rewrite Er.
  - change (TrimRightFunc (r :: a :: t) f) with
      (match TrimRightFunc (a :: t) f with
       | [] => if f r then [] else [r]
       | t' => r :: t'
       end).
    by rewrite IH.
Qed.

Lemma TrimFunc_idem s : TrimFunc (TrimFunc s f) f = TrimFunc s f.
Proof.
  unfold TrimFunc.
  destruct (TrimLeftFunc_cases s) as [-> | (c & t & -> & Hc)]; [done |].
  destruct (TrimRightFunc_head c t Hc) as [t' Ht'].
  rewrite Ht', TrimLeftFunc_stop, <- Ht' by done.
  apply TrimRightFunc_idem.
Qed.

(** A trimmed text does not end with a rune that [f] trims. *)
Lemma TrimRightFunc_fixed_last s c :
  TrimRightFunc s f = s -> last s = Some c -> f c = false.
Proof.
  induction s as [| r s IH]; simpl; [done |].
  destruct (TrimRightFunc s f) as [| a t] eqn:E.
  - destruct (f r) eqn:Er; [done |].
    intros [= <-]. simpl. by intros [= <-].
  - intros [= Hs]. rewrite <- Hs at 1. rewrite last_cons_cons.
    rewrite Hs. by apply IH.
Qed.

Lemma TrimFunc_fixed_right s : TrimFunc s f = s -> TrimRightFunc s f = s.
Proof.
  unfold TrimFunc. intros H. rewrite <- H at 1.
  by rewrite TrimRightFunc_idem.
Qed.

Lemma TrimFunc_fixed_last s c :
  TrimFunc s f = s -> last s = Some c -> f c = false.
Proof. intros H. apply TrimRightFunc_fixed_last, TrimFunc_fixed_right, H. Qed.

(** Leading runes that [f] trims go, and the first other rune stays. *)
Lemma TrimFunc_lead ws c s :
  Forall (fun c => f c = true) ws -> f c = false ->
  exists t, TrimFunc (ws ++ c :: s) f = c :: t /\ TrimRightFunc (c :: s) f = c :: t.
Proof.
  intros Hws Hc. unfold TrimFunc.
  rewrite TrimLeftFunc_skip, TrimLeftFunc_stop by done.
  destruct (TrimRightFunc_head c s Hc) as [t Ht]. eauto.
Qed.

Lemma TrimFunc_nonempty s c : c ∈ s -> f c = false -> TrimFunc s f <> [].
Proof.
  intros Hin Hc.
  assert (exists ws c' s', s = ws ++ c' :: s'
            /\ Forall (fun c => f c = true) ws /\ f c' = false)
    as (ws & c' & s' & -> & Hws & Hc').
  { clear -Hin Hc. induction Hin as [c s | c d s Hin IH].
    - exists [], c, s. by repeat split.
    - destruct (f d) eqn:Ed.
      + destruct (IH Hc) as (ws & c' & s' & -> & Hws & Hc').
        exists (d :: ws), c', s'. repeat split; [| done]. by constructor.
      + exists [], d, s. by repeat split. }
  destruct (TrimFunc_lead ws c' s' Hws Hc') as (t & -> & _). done.
Qed.

Lemma TrimRightFunc_snoc s c :
  f c = true -> TrimRightFunc (s ++ [c]) f = TrimRightFunc s f.
Proof.
  intros Hc. induction s as [| r s IH]; simpl; [by rewrite Hc |].
  by rewrite IH.
Qed.

(** What is trimmed is cut from the original text. *)
Lemma TrimLeftFunc_suffix s : exists l1, s = l1 ++ TrimLeftFunc s f.
Proof.
  induction s as [| r s [l1 IH]]; simpl; [by exists [] |].
  destruct (f r); [| by exists []].
  exists (r :: l1). simpl. by rewrite <- IH.
Qed.

Lemma TrimRightFunc_prefix s : exists l2, s = TrimRightFunc s f ++ l2.
Proof.
  induction s as [| r s [l2 IH]]; simpl; [by exists [] |].
  destruct (TrimRightFunc s f) as [| a t] eqn:E.
  - simpl in IH. destruct (f r); [by exists (r :: s) |].
    exists l2. by rewrite <- IH.
  - exists l2. simpl in *. by rewrite <- IH.
Qed.

Lemma TrimFunc_infix s : exists l1 l2, s = l1 ++ TrimFunc s f ++ l2.
Proof.
  unfold TrimFunc. destruct (TrimLeftFunc_suffix s) as [l1 H1].
  destruct (TrimRightFunc_prefix (TrimLeftFunc s f)) as [l2 H2].
  exists l1, l2. by rewrite <- H2.
Qed.

Lemma TrimFunc_elem_of s x : x ∈ TrimFunc s f -> x ∈ s.
Proof.
  intros H. destruct (TrimFunc_infix s) as (l1 & l2 & Hs). rewrite Hs.
  apply elem_of_app. right. apply elem_of_app. by left.
Qed.

End Trim.

(** The newline that ends a line typed is trimmed with the rest. *)
Lemma TrimSpace_newline l : TrimSpace (l ++ [10]) = TrimSpace l.
Proof.
  unfold TrimSpace, TrimFunc. rewrite TrimLeftFunc_snoc.
  destruct (TrimLeftFunc l unicode.IsSpace) as [| a t] eqn:E; [done |].
  by rewrite TrimRightFunc_snoc.
Qed.

Lemma HasPrefix_rune c s d :
  HasPrefix (c :: s) [d] = bool_decide (c = d).
Proof.
  unfold HasPrefix. simpl. rewrite take_0.
  destruct (decide (c = d)) as [-> | Hne].
  - by rewrite !bool_decide_eq_true_2.
  - rewrite !bool_decide_eq_false_2; [done | done | congruence].
Qed.

Lemma HasSuffix_spec s suffix :
  HasSuffix s suffix = true <-> exists p, s = p ++ suffix.
Proof.
  unfold HasSuffix. rewrite andb_true_iff, Nat.leb_le, bool_decide_eq_true.
  split.
  - intros [Hlen Hd]. exists (take (length s - length suffix) s).
    rewrite <- Hd at 2. by rewrite take_drop.
  - intros [p ->]. rewrite length_app. split; [lia |].
    replace (length p + length suffix - length suffix)%nat with (length p) by lia.
    apply drop_app_length.
Qed.

Lemma Index_rune before c after :
  c ∉ before -> Index (before ++ c :: after) [c] = Some (length before).
Proof.
  induction before as [| b before IH]; intros Hnin.
  - simpl. destruct after; simpl.
    + by rewrite HasPrefix_rune, bool_decide_eq_true_2.
    + by rewrite HasPrefix_rune, bool_decide_eq_true_2.
  - apply not_elem_of_cons in Hnin as [Hne Hnin].
    change ((b :: before) ++ c :: after) with (b :: (before ++ c :: after)).
    cbn [Index]. rewrite HasPrefix_rune, bool_decide_eq_false_2 by congruence.
    by rewrite IH.
Qed.

Lemma Index_rune_none s c : c ∉ s -> Index s [c] = None.
Proof.
  induction s as [| b s IH]; intros Hnin; [done |].
  apply not_elem_of_cons in Hnin as [Hne Hnin].
  cbn [Index]. rewrite HasPrefix_rune, bool_decide_eq_false_2 by congruence.
  by rewrite IH.
Qed.

(** Splitting in two at a rune cuts at its first occurrence. *)
Lemma SplitN_cut before c after :
  c ∉ before -> SplitN (before ++ c :: after) [c] 2 = [before; after].
Proof.
  intros Hnin. cbn [SplitN]. rewrite Index_rune by done.
  rewrite take_app_length. simpl length.
  replace (length before + 1)%nat with (length (before ++ [c]))
    by (rewrite length_app; simpl; lia).
  rewrite (cons_middle c before after), app_assoc.
  by rewrite drop_app_length.
Qed.

Lemma SplitN_whole s c : c ∉ s -> SplitN s [c] 2 = [s].
Proof. intros Hnin. cbn [SplitN]. by rewrite Index_rune_none. Qed.

(** Replacing one rune by another is a map over the text. *)
Lemma ReplaceAll_rune s c d :
  ReplaceAll s [c] [d] = map (fun x => if x =? c then d else x) s.
Proof.
  unfold ReplaceAll. induction s as [| r s IH]; [done |].
  cbn [replace_from map]. rewrite HasPrefix_rune. simpl length. simpl Nat.sub.
  destruct (N.eqb_spec r c) as [-> | Hne].
  - rewrite bool_decide_eq_true_2 by done. simpl. by rewrite IH.
  - rewrite bool_decide_eq_false_2 by done. by rewrite IH.
Qed.

End strings_facts.

(** ** The key normaliser and the value validator *)

Section Normalizer.

Variable U : unicode.CaseTables.

Lemma trim_TrimSpace s : spec.trim s = strings.TrimSpace s.
Proof.
  unfold spec.trim, strings.TrimSpace, strings.TrimFunc.
  by rewrite strings_facts.TrimRightFunc_rev.
Qed.

Lemma in_class_upper_or_underscore c :
  regexp.in_class [(65, 90); (95, 95)] c = spec.upper_or_underscore c.
Proof.
  unfold regexp.in_class, spec.upper_or_underscore. simpl.
  rewrite orb_false_r. f_equal.
  destruct (N.eqb_spec c 95) as [-> | Hne]; [done |].
  apply andb_false_iff.
  destruct (N.leb_spec 95 c); [right; apply N.leb_gt; lia | by left].
Qed.

(** [^[A-Z_]+$] holds of the texts that are not empty and made of
    upper-case letters and underscores. *)
Lemma MatchString_key_pattern s :
  regexp.MatchString key_pattern s =
  forallb spec.upper_or_underscore s && negb (bool_decide (s = [])).
Proof.
  apply eq_true_iff_eq. unfold key_pattern, regexp.Plus.
  rewrite regexp_facts.MatchString_anchored.
  rewrite andb_true_iff, negb_true_iff, bool_decide_eq_false, forallb_forall.
  split.
  - inversion 1 as [| | | ? ? s1 s2 H1 H2 | | | |]; subst.
    inversion H1 as [| | ? c Hc | | | | |]; subst.
    apply regexp_facts.lang_star_class in H2. split; [| done].
    intros x [<- | Hin]%in_inv.
    + by rewrite <- in_class_upper_or_underscore.
    + rewrite <- in_class_upper_or_underscore.
      rewrite Forall_forall in H2. by apply H2, list_elem_of_In.
  - intros [Hall Hne]. destruct s as [| c s]; [done |].
    change (c :: s) with ([c] ++ s). constructor.
    + constructor. rewrite in_class_upper_or_underscore. apply Hall. by left.
    + apply regexp_facts.lang_star_class, Forall_forall. intros x Hx.
      rewrite in_class_upper_or_underscore. apply Hall. right.
      by apply list_elem_of_In.
Qed.

Lemma ends_with_KEY_HasSuffix s :
  spec.ends_with_KEY s = strings.HasSuffix s (go "_KEY").
Proof.
  apply eq_true_iff_eq. rewrite strings_facts.HasSuffix_spec.
  unfold spec.ends_with_KEY. split.
  - intros H. exists (rev (drop 4 (rev s))).
    rewrite <- (rev_involutive s) at 1.
    rewrite <- (take_drop 4 (rev s)) at 1. rewrite rev_app_distr. f_equal.
    destruct (rev s) as [| a [| b [| c [| d t]]]]; try done.
    rewrite !andb_true_iff, !N.eqb_eq in H. by destruct H as [[[-> ->] ->] ->].
  - intros [p ->]. by rewrite rev_app_distr.
Qed.

Lemma in_class_cyrillic c :
  regexp.in_class [(0x430, 0x44F); (0x410, 0x42F); (0x451, 0x451);
                   (0x401, 0x401)] c = spec.cyrillic_letter c.
Proof.
  unfold regexp.in_class, spec.cyrillic_letter. cbn [existsb fst snd].
  apply eq_true_iff_eq.
  rewrite !orb_true_iff, !andb_true_iff, !N.leb_le, !N.eqb_eq. lia.
Qed.

(** [[а-яА-ЯёЁ]] holds of the texts with a Cyrillic letter. *)
Lemma MatchString_cyrillic_pattern s :
  regexp.MatchString cyrillic_pattern s = existsb spec.cyrillic_letter s.
Proof.
  apply eq_true_iff_eq. unfold cyrillic_pattern.
  rewrite regexp_facts.MatchString_class, Exists_exists, existsb_exists.
  split; intros (c & Hin & Hc); exists c.
  - split; [by apply list_elem_of_In |]. by rewrite <- in_class_cyrillic.
  - split; [by apply list_elem_of_In |]. by rewrite in_class_cyrillic.
Qed.

(** The program's normaliser is the normaliser of the specification. *)
Lemma formatAndValidateKey_normalize raw :
  formatAndValidateKey U raw = spec.normalize U raw.
Proof.
  unfold formatAndValidateKey, spec.normalize.
  change (go " ") with [32]. change (go "_") with [95].
  rewrite strings_facts.ReplaceAll_rune, trim_TrimSpace.
  unfold strings.ToUpper. rewrite MatchString_key_pattern.
  rewrite ends_with_KEY_HasSuffix.
  destruct (forallb _ _ && _); simpl; [| done].
  by destruct (strings.HasSuffix _ _).
Qed.

Lemma validateValue_validate raw : validateValue raw = spec.validate raw.
Proof.
  unfold validateValue, spec.validate.
  by rewrite trim_TrimSpace, MatchString_cyrillic_pattern.
Qed.

(** (C5) [normalize] is this sequence on every raw input: trim the white
    space at both ends, replace every space by an underscore, upper-case,
    reject with [InvalidCharacters] unless the result matches [^[A-Z_]+$],
    then append [_KEY] only if the text does not already end with it; so
    [" db password "] gives ["DB_PASSWORD_KEY"] and ["already_KEY"] gives
    ["ALREADY_KEY"], the suffix not doubled. *)
Theorem C5_normalize_steps :
  (forall raw, formatAndValidateKey U raw = spec.normalize U raw)
  /\ formatAndValidateKey U (go " db password ") = (go "DB_PASSWORD_KEY", None)
  /\ formatAndValidateKey U (go "already_KEY") = (go "ALREADY_KEY", None).
Proof.
  split; [apply formatAndValidateKey_normalize |].
  split; vm_compute; reflexivity.
Qed.

(** A key that the normaliser returns: a text of [^[A-Z_]+$], with
    [_KEY] appended when it did not end with it. *)
Lemma formatAndValidateKey_ok raw k :
  formatAndValidateKey U raw = (k, None) ->
  exists s, forallb spec.upper_or_underscore s = true /\
    (k = s /\ strings.HasSuffix s (go "_KEY") = true \/ k = s ++ go "_KEY").
Proof.
  rewrite formatAndValidateKey_normalize. unfold spec.normalize.
  set (s := map (unicode.ToUpper U) _).
  destruct (forallb spec.upper_or_underscore s) eqn:Hall; simpl; [| done].
  destruct (bool_decide (s = [])); simpl; [done |].
  rewrite ends_with_KEY_HasSuffix.
  destruct (strings.HasSuffix s (go "_KEY")) eqn:Hsuf; intros [= <-];
    exists s; auto.
Qed.

Lemma formatAndValidateKey_err raw k e :
  formatAndValidateKey U raw = (k, Some e) -> e = ErrInvalidCharacters /\ k = [].
Proof.
  unfold formatAndValidateKey.
  destruct (negb _); [by intros [= <- <-] | done].
Qed.

(** (C6, amended) On every raw key, and so on those made of letters,
    digits and punctuation, [normalize] rejects with [InvalidCharacters]
    or returns a text that matches [^[A-Z_]*_KEY$]: upper-case ASCII
    letters and underscores only, ending in [_KEY]; nothing need precede
    the suffix. *)
Theorem C6_normalize_canonical raw :
  match formatAndValidateKey U raw with
  | (_, Some e) => e = ErrInvalidCharacters
  | (k, None) =>
      regexp.MatchString spec.canonical_pattern k = true
      /\ forallb spec.upper_or_underscore k = true
      /\ strings.HasSuffix k (go "_KEY") = true
  end.
Proof.
  destruct (formatAndValidateKey U raw) as [k [e |]] eqn:E.
  { by apply formatAndValidateKey_err in E as [-> _]. }
  apply formatAndValidateKey_ok in E as (s & Hall & Hk).
  assert (exists p, k = p ++ go "_KEY" /\ forallb spec.upper_or_underscore p = true)
    as (p & -> & Hp).
  { destruct Hk as [[-> Hsuf] | ->].
    - apply strings_facts.HasSuffix_spec in Hsuf as [p ->].
      exists p. split; [done |].
      rewrite forallb_app in Hall. by apply andb_true_iff in Hall as [? _].
    - by exists s. }
  split; [| split].
  - unfold spec.canonical_pattern.
    apply regexp_facts.MatchString_anchored. constructor.
    + apply regexp_facts.lang_star_class, Forall_forall. intros x Hx.
      rewrite in_class_upper_or_underscore.
      rewrite forallb_forall in Hp. by apply Hp, list_elem_of_In.
    + by apply regexp_facts.lang_lit.
  - rewrite forallb_app, Hp. reflexivity.
  - apply strings_facts.HasSuffix_spec. by exists p.
Qed.

(** (C7) [validate] rejects with [ForbiddenScript] exactly when the
    trimmed input has a Cyrillic letter (U+0410 to U+044F, or ё/Ё), and
    otherwise returns the trimmed text as it is; so ["пароль"] is
    rejected and [" secret123 "] gives ["secret123"]. *)
Theorem C7_validate_cyrillic :
  (forall raw,
     validateValue raw =
     if existsb spec.cyrillic_letter (strings.TrimSpace raw)
     then ([], Some ErrForbiddenScript)
     else (strings.TrimSpace raw, None))
  /\ (forall raw,
        snd (validateValue raw) = Some ErrForbiddenScript <->
        exists c, c ∈ strings.TrimSpace raw /\ spec.cyrillic_letter c = true)
  /\ validateValue [0x43F; 0x430; 0x440; 0x43E; 0x43B; 0x44C]
     = ([], Some ErrForbiddenScript)
  /\ validateValue (go " secret123 ") = (go "secret123", None).
Proof.
  assert (forall raw,
     validateValue raw =
     if existsb spec.cyrillic_letter (strings.TrimSpace raw)
     then ([], Some ErrForbiddenScript)
     else (strings.TrimSpace raw, None)) as Heq.
  { intros raw. rewrite validateValue_validate. unfold spec.validate.
    by rewrite trim_TrimSpace. }
  split; [done |]. split; [| split; vm_compute; reflexivity].
  intros raw. rewrite Heq.
  destruct (existsb _ _) eqn:E; simpl.
  - split; [| done]. intros _. apply existsb_exists in E as (c & Hin & Hc).
    exists c. split; [by apply list_elem_of_In | done].
  - split; [done |]. intros (c & Hin & Hc).
    assert (existsb spec.cyrillic_letter (strings.TrimSpace raw) = true) as E'.
    { apply existsb_exists. exists c. split; [by apply list_elem_of_In | done]. }
    congruence.
Qed.

End Normalizer.

(** (C6, as stated) The raw key ["_KEY"] is made of letters and a
    punctuation mark, is accepted and returned as it is, and does not match
    [^[A-Z_]+_KEY$], which wants a rune before the suffix. *)
Lemma C6_counterexample :
  forallb spec.ascii_letter_digit_punct (go "_KEY") = true
  /\ (forall U, formatAndValidateKey U (go "_KEY") = (go "_KEY", None))
  /\ regexp.MatchString spec.canonical_pattern_plus (go "_KEY") = false.
Proof. repeat split; vm_compute; reflexivity. Qed.

(** ** The line reader *)

Module bufio_facts.
Import bufio.

Lemma raw_lines_line l rest :
  10 ∉ l -> raw_lines (l ++ 10 :: rest) = l :: raw_lines rest.
Proof.
  induction l as [| c l IH]; intros Hnin; [done |].
  apply not_elem_of_cons in Hnin as [Hne Hnin].
  simpl. rewrite IH by done.
  destruct (N.eqb_spec c 10); [congruence | done].
Qed.

(** The text that [writeEnvMap] makes of its lines is cut back into
    them; of no lines at all it makes one empty line. *)
Lemma raw_lines_Join ls :
  Forall (fun l => 10 ∉ l) ls ->
  raw_lines (strings.Join ls [10] ++ [10]) =
  match ls with [] => [[]] | _ => ls end.
Proof.
  induction 1 as [| l ls Hl Hls IH]; [done |].
  destruct ls as [| l' ls'].
  - simpl. by rewrite raw_lines_line.
  - replace (strings.Join (l :: l' :: ls') [10] ++ [10])
      with (l ++ 10 :: (strings.Join (l' :: ls') [10] ++ [10])).
    + rewrite raw_lines_line by done. by rewrite IH.
    + change (strings.Join (l :: l' :: ls') [10])
        with (l ++ [10] ++ strings.Join (l' :: ls') [10]).
      by rewrite <- !app_assoc.
Qed.

Lemma while_fits_all ls : Forall (fun l => fits l = true) ls -> while_fits ls = ls.
Proof. induction 1 as [| l ls Hl _ IH]; simpl; [done |]. by rewrite Hl, IH. Qed.

Lemma dropCR_id l : last l <> Some 13 -> dropCR l = l.
Proof.
  induction l as [| c l IH]; [done |].
  destruct l as [| d l'].
  - simpl. destruct (N.eqb_spec c 13); [congruence | done].
  - rewrite last_cons_cons. intros H.
    change (dropCR (c :: d :: l')) with (c :: dropCR (d :: l')).
    by rewrite IH.
Qed.

(** No line that the scanner delivers has a newline in it. *)
Lemma raw_lines_no_newline data l : l ∈ raw_lines data -> 10 ∉ l.
Proof.
  revert l. induction data as [| c data IH]; intros l; simpl.
  - by intros ?%elem_of_nil.
  - destruct (N.eqb_spec c 10) as [-> | Hne].
    + intros [-> | Hin]%elem_of_cons; [apply not_elem_of_nil | by apply IH].
    + destruct (raw_lines data) as [| l0 ls] eqn:E.
      * intros ->%list_elem_of_singleton.
        apply not_elem_of_cons. split; [done | apply not_elem_of_nil].
      * intros [-> | Hin]%elem_of_cons.
        -- apply not_elem_of_cons. split; [done |]. apply IH. by left.
        -- apply IH. by right.
Qed.

Lemma len_app s1 s2 : utf8.len (s1 ++ s2) = utf8.len s1 + utf8.len s2.
Proof. induction s1 as [| c s1 IH]; simpl; [done |]. rewrite IH. lia. Qed.

Lemma dropCR_prefix s : exists l2, s = dropCR s ++ l2.
Proof.
  induction s as [| c s [l2 IH]]; [by exists [] |].
  destruct s as [| d s'].
  - simpl. destruct (c =? 13); [by exists [c] | by exists []].
  - exists l2. change (dropCR (c :: d :: s')) with (c :: dropCR (d :: s')).
    cbn [app]. by rewrite <- IH.
Qed.

(** A line that the scanner delivers is a raw line of the file that fits,
    without its carriage return. *)
Lemma Lines_elem data line :
  line ∈ Lines data ->
  exists raw, line = dropCR raw /\ fits raw = true /\ 10 ∉ raw.
Proof.
  unfold Lines. intros (raw & -> & Hin)%list_elem_of_fmap_1.
  exists raw. split; [done |].
  assert (forall ls, raw ∈ while_fits ls -> fits raw = true /\ raw ∈ ls) as Hw.
  { clear. intros ls. induction ls as [| l ls IH]; simpl.
    - by intros ?%elem_of_nil.
    - destruct (fits l) eqn:E; [| by intros ?%elem_of_nil].
      intros [-> | Hin]%elem_of_cons; [split; [done | by left] |].
      destruct (IH Hin). split; [done | by right]. }
  apply Hw in Hin as [Hfits Hin]. split; [done |].
  by eapply raw_lines_no_newline.
Qed.

End bufio_facts.

(** ** The order of a [range] loop *)

Lemma range_order_Permutation {A} (seed : list nat) (l : list A) :
  range_order seed l ≡ₚ l.
Proof.
  revert l. induction seed as [| n seed IH]; intros l; simpl; [done |].
  destruct (l !! (n mod length l)%nat) as [x |] eqn:E; [| done].
  rewrite IH. symmetry. by apply delete_Permutation.
Qed.

(** Every order is the order of some run. *)
Lemma range_order_complete {A} (l l' : list A) :
  l ≡ₚ l' -> exists seed, range_order seed l = l'.
Proof.
  revert l. induction l' as [| x l' IH]; intros l Hp.
  - apply Permutation_nil_r in Hp as ->. by exists [].
  - assert (x ∈ l) as Hin by (rewrite Hp; by left).
    apply list_elem_of_lookup in Hin as [i Hi].
    assert (i < length l)%nat as Hlt by (by eapply lookup_lt_Some).
    destruct (IH (delete i l)) as [seed Hseed].
    { apply (Permutation_cons_inv (a := x)).
      rewrite <- Hp. symmetry. by apply delete_Permutation. }
    exists (i :: seed). simpl.
    rewrite Nat.mod_small by done. by rewrite Hi, Hseed.
Qed.

(** ** The store reader and the store writer *)

Section Store.

Implicit Types (env m : gmap (list N) (list N)) (k v line : list N).


(** Lines that begin with [#] are comments. *)
Lemma scan_line_comment env line :
  strings.HasPrefix line (go "#") = true -> scan_line env line = env.
Proof. unfold scan_line. intros ->. by rewrite orb_true_r. Qed.

(** A line that is not blank nor a comment and has an [=] gives an
    entry: what is before the first [=], and what is after, trimmed. *)
Lemma scan_line_entry env before after :
  61 ∉ before ->
  strings.HasPrefix (before ++ 61 :: after) (go "#") = false ->
  scan_line env (before ++ 61 :: after) =
  <[strings.TrimSpace before := strings.TrimSpace after]> env.
Proof.
  intros Hnin Hpre. unfold scan_line. rewrite Hpre, orb_false_r.
  rewrite bool_decide_eq_false_2.
  - change (go "=") with [61]. by rewrite strings_facts.SplitN_cut.
  - apply (strings_facts.TrimFunc_nonempty _ _ 61); [| done].
    apply elem_of_app. right. by left.
Qed.

(** Blank lines are skipped. *)
Lemma scan_line_blank env line :
  strings.TrimSpace line = [] -> scan_line env line = env.
Proof. unfold scan_line. intros ->. by rewrite bool_decide_eq_true_2. Qed.

(** A line without [=] gives no entry. *)
Lemma scan_line_no_equals env line : 61 ∉ line -> scan_line env line = env.
Proof.
  intros Hnin. unfold scan_line. destruct (_ || _); [done |].
  change (go "=") with [61]. by rewrite strings_facts.SplitN_whole.
Qed.

(** Keys and values are stored trimmed. *)
Lemma scan_line_trimmed env line :
  map_Forall (fun k v => strings.TrimSpace k = k /\ strings.TrimSpace v = v) env ->
  map_Forall (fun k v => strings.TrimSpace k = k /\ strings.TrimSpace v = v)
             (scan_line env line).
Proof.
  intros H. unfold scan_line.
  destruct (_ || _); [done |]. destruct (_ =? _)%nat; [| done].
  apply map_Forall_insert_2; [| done].
  split; apply strings_facts.TrimFunc_idem.
Qed.

Lemma fold_scan_line_trimmed ls env :
  map_Forall (fun k v => strings.TrimSpace k = k /\ strings.TrimSpace v = v) env ->
  map_Forall (fun k v => strings.TrimSpace k = k /\ strings.TrimSpace v = v)
             (fold_left scan_line ls env).
Proof.
  revert env. induction ls as [| l ls IH]; intros env H; [done |].
  simpl. by apply IH, scan_line_trimmed.
Qed.





(** A stored entry is read back as it is. *)
Lemma scan_line_storable env k v :
  spec.storable k v = true ->
  scan_line env (Sprintf_kv (k, v)) = <[k := v]> env.
Proof.
  unfold spec.storable.
  rewrite !andb_true_iff, !negb_true_iff, !bool_decide_eq_true,
    !bool_decide_eq_false.
  intros [[[[[[Hk Hv] Heq] Hhash] _] _] _].
  change (Sprintf_kv (k, v)) with (k ++ 61 :: v).
  rewrite scan_line_entry, Hk, Hv; [done | done |].
  change (go "#") with [35] in *.
  destruct k as [| c k']; cbn [app].
  - by rewrite strings_facts.HasPrefix_rune.
  - by rewrite strings_facts.HasPrefix_rune in *.
Qed.

Lemma storable_line k v :
  spec.storable k v = true ->
  (10 ∉ Sprintf_kv (k, v))
  /\ bufio.fits (Sprintf_kv (k, v)) = true
  /\ bufio.dropCR (Sprintf_kv (k, v)) = Sprintf_kv (k, v).
Proof.
  unfold spec.storable.
  rewrite !andb_true_iff, !negb_true_iff, !bool_decide_eq_true,
    !bool_decide_eq_false.
  intros [[[[[[Hk Hv] Heq] Hhash] Hnk] Hnv] Hfits].
  change (Sprintf_kv (k, v)) with (k ++ 61 :: v). split; [| split; [done |]].
  - rewrite elem_of_app, elem_of_cons. intros [? | [? | ?]]; done.
  - apply bufio_facts.dropCR_id.
    rewrite last_app_cons.
    destruct (last (61 :: v)) as [c |] eqn:E; [| done].
    intros [= ->]. destruct v as [| d v']; [done |].
    rewrite last_cons_cons in E.
    by apply (strings_facts.TrimFunc_fixed_last _ _ _ Hv) in E.
Qed.

(** Of two lines with the same key, the later one wins. *)
Lemma scan_line_last_wins env k v1 v2 :
  spec.storable k v1 = true -> spec.storable k v2 = true ->
  fold_left scan_line [Sprintf_kv (k, v1); Sprintf_kv (k, v2)] env
  = <[k := v2]> env.
Proof.
  intros H1 H2. simpl. rewrite !scan_line_storable by done.
  apply insert_insert_eq.
Qed.

Lemma Lines_written (entries : list (list N * list N)) :
  Forall (fun kv => spec.storable kv.1 kv.2 = true) entries ->
  bufio.Lines (strings.Join (map Sprintf_kv entries) [10] ++ [10]) =
  match entries with [] => [[]] | _ => map Sprintf_kv entries end.
Proof.
  intros Hall. unfold bufio.Lines.
  rewrite bufio_facts.raw_lines_Join.
  2:{ apply Forall_map. eapply Forall_impl; [exact Hall |].
      intros [k v] H. by apply storable_line in H as [? _]. }
  destruct entries as [| e entries']; [done |].
  change (match map Sprintf_kv (e :: entries') with
          | [] => [[]] | _ => map Sprintf_kv (e :: entries') end)
    with (map Sprintf_kv (e :: entries')).
  revert Hall. generalize (e :: entries'). intros entries Hall.
  rewrite bufio_facts.while_fits_all.
  2:{ apply Forall_map. eapply Forall_impl; [exact Hall |].
      intros [k v] H. by apply storable_line in H as (_ & ? & _). }
  induction Hall as [| [k v] es H _ IH]; [done |].
  cbn [map]. apply storable_line in H as (_ & _ & Hcr).
  simpl in Hcr. by rewrite Hcr, IH.
Qed.

Lemma fold_scan_line_storable (entries : list (list N * list N)) :
  Forall (fun kv => spec.storable kv.1 kv.2 = true) entries ->
  forall env,
    fold_left scan_line (map Sprintf_kv entries) env =
    foldr (fun p => <[p.1 := p.2]>) env (rev entries).
Proof.
  induction 1 as [| [k v] es H _ IH]; intros env; [done |].
  simpl. rewrite foldr_app, IH. simpl. by rewrite scan_line_storable.
Qed.

(** Reading what was written of the entries, in their order. *)
Lemma read_written (entries : list (list N * list N)) :
  Forall (fun kv => spec.storable kv.1 kv.2 = true) entries ->
  fold_left scan_line
    (bufio.Lines (strings.Join (map Sprintf_kv entries) [10] ++ [10])) ∅
  = list_to_map (rev entries).
Proof.
  intros Hall. rewrite Lines_written by done.
  destruct entries as [| e entries']; [done |].
  by apply fold_scan_line_storable.
Qed.

(** Written in whatever order, a mapping of storable entries is read
    back as it was. *)
Lemma read_written_map m (entries : list (list N * list N)) :
  map_Forall (fun k v => spec.storable k v = true) m ->
  entries ≡ₚ map_to_list m ->
  fold_left scan_line
    (bufio.Lines (strings.Join (map Sprintf_kv entries) [10] ++ [10])) ∅
  = m.
Proof.
  intros Hm Hp. rewrite read_written.
  - rewrite <- (list_to_map_to_list m) at 1.
    rewrite rev_alt. change (rev_append entries []) with (reverse entries).
    apply list_to_map_proper.
    + rewrite reverse_Permutation, Hp. apply NoDup_fst_map_to_list.
    + by rewrite reverse_Permutation.
  - rewrite Hp. apply Forall_forall. intros [k v] Hin.
    apply elem_of_map_to_list in Hin. by apply Hm in Hin.
Qed.

(** What the reader does with a line: nothing, or an entry of the trimmed
    texts before and after its first [=]. *)
Lemma scan_line_cases env line :
  scan_line env line = env
  \/ exists before after,
       line = before ++ 61 :: after /\ (61 ∉ before)
       /\ scan_line env line =
          <[strings.TrimSpace before := strings.TrimSpace after]> env.
Proof.
  destruct (decide (61 ∈ line)) as [Hin | Hnin];
    [| left; by apply scan_line_no_equals].
  apply list_elem_of_split_l in Hin as (before & after & -> & Hnin).
  destruct (strings.HasPrefix (before ++ 61 :: after) (go "#")) eqn:Hpre.
  - left. by apply scan_line_comment.
  - right. exists before, after. by rewrite scan_line_entry.
Qed.

(** An entry read from a line that the scanner delivered is storable,
    unless its key begins with [#]. *)
Lemma read_entry_storable raw before after :
  bufio.fits raw = true -> 10 ∉ raw ->
  bufio.dropCR raw = before ++ 61 :: after -> 61 ∉ before ->
  strings.HasPrefix (strings.TrimSpace before) (go "#") = false ->
  spec.storable (strings.TrimSpace before) (strings.TrimSpace after) = true.
Proof.
  intros Hfits Hnl Hline Hnin Hhash.
  destruct (bufio_facts.dropCR_prefix raw) as [cr Hraw].
  destruct (strings_facts.TrimFunc_infix unicode.IsSpace before)
    as (b1 & b2 & Hb).
  destruct (strings_facts.TrimFunc_infix unicode.IsSpace after)
    as (a1 & a2 & Ha).
  fold (strings.TrimSpace before) in Hb. fold (strings.TrimSpace after) in Ha.
  assert ((10 ∉ before) /\ (10 ∉ after)) as [Hnb Hna].
  { rewrite Hraw, Hline in Hnl.
    rewrite !elem_of_app, elem_of_cons in Hnl. tauto. }
  unfold spec.storable.
  rewrite !andb_true_iff, !negb_true_iff, !bool_decide_eq_true,
    !bool_decide_eq_false.
  repeat split.
  - apply strings_facts.TrimFunc_idem.
  - apply strings_facts.TrimFunc_idem.
  - intros H. by apply strings_facts.TrimFunc_elem_of in H.
  - done.
  - intros H. by apply strings_facts.TrimFunc_elem_of in H.
  - intros H. by apply strings_facts.TrimFunc_elem_of in H.
  - unfold bufio.fits in *. apply N.ltb_lt in Hfits. apply N.ltb_lt.
    rewrite Hraw, Hline in Hfits.
    rewrite Hb, Ha in Hfits.
    rewrite !bufio_facts.len_app in Hfits. simpl in Hfits.
    rewrite !bufio_facts.len_app in Hfits.
    rewrite bufio_facts.len_app. simpl. lia.
Qed.

Lemma fold_scan_line_loaded ls env :
  (forall line, line ∈ ls ->
     exists raw, line = bufio.dropCR raw /\ bufio.fits raw = true /\ 10 ∉ raw) ->
  map_Forall (fun k v => strings.HasPrefix k (go "#") = false ->
                         spec.storable k v = true) env ->
  map_Forall (fun k v => strings.HasPrefix k (go "#") = false ->
                         spec.storable k v = true)
             (fold_left scan_line ls env).
Proof.
  revert env. induction ls as [| l ls IH]; intros env Hls Henv; [done |].
  simpl. apply IH.
  - intros line Hin. apply Hls. by right.
  - destruct (scan_line_cases env l)
      as [-> | (before & after & Hl & Hnin & ->)]; [done |].
    apply map_Forall_insert_2; [| done].
    destruct (Hls l) as (raw & Hraw & Hfits & Hnl); [by left |].
    intros Hhash. eapply read_entry_storable; try done. by rewrite <- Hraw.
Qed.

(** The entries of the mapping read from a file are storable, unless
    their key begins with [#]. *)
Lemma Lines_storable data :
  map_Forall (fun k v => strings.HasPrefix k (go "#") = false ->
                         spec.storable k v = true)
             (fold_left scan_line (bufio.Lines data) ∅).
Proof.
  apply fold_scan_line_loaded; [| apply map_Forall_empty].
  apply bufio_facts.Lines_elem.
Qed.

End Store.

(** ** The reader and the writer in a world *)

Section StoreIO.

Implicit Types (w : World) (m : gmap (list N) (list N)).
Implicit Types (path data key value : list N).

Lemma readEnvFileToMap_present path w data :
  open_faults w !! path = None -> files w !! path = Some data ->
  readEnvFileToMap path w =
  ((fold_left scan_line (bufio.Lines data) ∅, None), w).
Proof.
  intros Ho Hf. unfold readEnvFileToMap, bind, os.OpenFile.
  by rewrite Ho, Hf.
Qed.

Lemma readEnvFileToMap_absent path w :
  open_faults w !! path = None -> files w !! path = None ->
  readEnvFileToMap path w =
  ((∅, None), set_files w (<[path := []]> (files w))).
Proof.
  intros Ho Hf. unfold readEnvFileToMap, bind, os.OpenFile.
  by rewrite Ho, Hf.
Qed.

Lemma readEnvFileToMap_fault path w errno :
  open_faults w !! path = Some errno ->
  readEnvFileToMap path w = ((∅, Some (ErrIO errno)), w).
Proof.
  intros Ho. unfold readEnvFileToMap, bind, os.OpenFile.
  by rewrite Ho.
Qed.

(** Reading changes nothing but, at most, the set of files, and leaves
    the record of the writes alone; if it fails, or the file was there, it
    changes nothing at all. *)
Lemma readEnvFileToMap_world path w :
  let '((m, err), w') := readEnvFileToMap path w in
  stdin w' = stdin w /\ stdout w' = stdout w /\ writes w' = writes w
  /\ open_faults w' = open_faults w /\ write_faults w' = write_faults w
  /\ map_seed w' = map_seed w
  /\ (err <> None \/ m <> ∅ -> w' = w).
Proof.
  destruct (open_faults w !! path) as [errno |] eqn:Ho.
  { rewrite (readEnvFileToMap_fault _ _ _ Ho). by repeat split. }
  destruct (files w !! path) as [data |] eqn:Hf.
  { rewrite (readEnvFileToMap_present _ _ _ Ho Hf). by repeat split. }
  rewrite (readEnvFileToMap_absent _ _ Ho Hf). repeat split; try done.
  by intros [? | ?].
Qed.

Lemma writeEnvMap_unfold path m w :
  writeEnvMap path m w =
  os.WriteFile path
    (spec.file_text (range_order (map_seed w) (map_to_list m))) w.
Proof. reflexivity. Qed.

(** Whatever the file, the mapping loaded has trimmed keys and values. *)
Lemma loaded_trimmed path w m err w' :
  readEnvFileToMap path w = ((m, err), w') ->
  map_Forall (fun k v => strings.TrimSpace k = k /\ strings.TrimSpace v = v) m.
Proof.
  destruct (open_faults w !! path) as [errno |] eqn:Ho.
  { rewrite (readEnvFileToMap_fault _ _ _ Ho). intros [= <- _ _].
    apply map_Forall_empty. }
  destruct (files w !! path) as [data |] eqn:Hf.
  - rewrite (readEnvFileToMap_present _ _ _ Ho Hf). intros [= <- _ _].
    apply fold_scan_line_trimmed, map_Forall_empty.
  - rewrite (readEnvFileToMap_absent _ _ Ho Hf). intros [= <- _ _].
    apply map_Forall_empty.
Qed.

(** After a write that succeeded, the file is read back as the mapping
    that was written, if its entries are storable. *)
Lemma load_saved path m w w' :
  spec.saved path m w w' None ->
  open_faults w' !! path = None ->
  map_Forall (fun k v => spec.storable k v = true) m ->
  readEnvFileToMap path w' = ((m, None), w').
Proof.
  intros (entries & Hp & _ & _ & Hf & _) Ho Hm.
  rewrite (readEnvFileToMap_present _ _ _ Ho (Hf eq_refl)).
  unfold spec.file_text. by rewrite (read_written_map m).
Qed.

(** (X21) The round trip of specification section 8: the mapping loaded
    from a file, saved and loaded again, is the same mapping, if none of
    its keys begins with [#]. *)
Lemma load_save_load path w m w0 :
  readEnvFileToMap path w = ((m, None), w0) ->
  map_Forall (fun k _ => strings.HasPrefix k (go "#") = false) m ->
  write_faults w !! path = None ->
  exists w1,
    writeEnvMap path m w0 = (None, w1)
    /\ readEnvFileToMap path w1 = ((m, None), w1).
Proof.
  intros Hl Hhash Hw.
  assert (map_Forall (fun k v => spec.storable k v = true) m) as Hm.
  { destruct (open_faults w !! path) as [errno |] eqn:Ho.
    { by rewrite (readEnvFileToMap_fault _ _ _ Ho) in Hl. }
    destruct (files w !! path) as [data |] eqn:Hf.
    - rewrite (readEnvFileToMap_present _ _ _ Ho Hf) in Hl.
      injection Hl as <- _. intros k v Hk.
      apply (Lines_storable data k v Hk). by apply (Hhash k v).
    - rewrite (readEnvFileToMap_absent _ _ Ho Hf) in Hl.
      injection Hl as <- _. apply map_Forall_empty. }
  pose proof (readEnvFileToMap_world path w) as Hworld. rewrite Hl in Hworld.
  destruct Hworld as (_ & _ & _ & Ho0 & Hw0 & _).
  assert (open_faults w !! path = None) as Ho.
  { destruct (open_faults w !! path) as [errno |] eqn:Ho; [| done].
    by rewrite (readEnvFileToMap_fault _ _ _ Ho) in Hl. }
  rewrite writeEnvMap_unfold. unfold os.WriteFile. rewrite Hw0, Hw.
  eexists. split; [done |].
  rewrite (readEnvFileToMap_present _ _
             (spec.file_text (range_order (map_seed w0) (map_to_list m)))).
  - unfold spec.file_text. rewrite (read_written_map m); [done | done |].
    apply range_order_Permutation.
  - simpl. by rewrite Ho0.
  - simpl. apply lookup_insert_eq.
Qed.

(** (C8, amended) A mapping whose keys and values are their own trimmed
    forms and have no newline, whose keys have no [=] and do not begin
    with [#], and whose lines fit the line reader, is read back as it was
    after it is saved, in whatever order the entries were written. *)
Theorem C8_save_then_load path m w :
  write_faults w !! path = None ->
  open_faults w !! path = None ->
  map_Forall (fun k v => spec.storable k v = true) m ->
  exists w1,
    writeEnvMap path m w = (None, w1)
    /\ readEnvFileToMap path w1 = ((m, None), w1).
Proof.
  intros Hw Ho Hm. rewrite writeEnvMap_unfold.
  unfold os.WriteFile. rewrite Hw. eexists. split; [done |].
  rewrite (readEnvFileToMap_present _ _
             (spec.file_text (range_order (map_seed w) (map_to_list m)))).
  - unfold spec.file_text. rewrite (read_written_map m); [done | done |].
    apply range_order_Permutation.
  - done.
  - simpl. apply lookup_insert_eq.
Qed.


End StoreIO.

(** (C8, as stated) The mapping of ["A"] to [" x"] has no [=], no [#] and
    no newline; saved and loaded, in any world where both succeed, it comes
    back as the mapping of ["A"] to ["x"]. *)
Lemma C8_counterexample :
  map_Forall (fun k v => spec.plain k v = true)
    ({[ go "A" := go " x" ]} : gmap (list N) (list N))
  /\ forall w,
       write_faults w !! go ".env" = None ->
       open_faults w !! go ".env" = None ->
       exists w1 m',
         writeEnvMap (go ".env") {[ go "A" := go " x" ]} w = (None, w1)
         /\ readEnvFileToMap (go ".env") w1 = ((m', None), w1)
         /\ m' !! go "A" = Some (go "x")
         /\ m' <> {[ go "A" := go " x" ]}.
Proof.
  split; [by apply map_Forall_singleton |].
  intros w Hw Ho. rewrite writeEnvMap_unfold.
  assert (range_order (map_seed w)
            (map_to_list ({[ go "A" := go " x" ]} : gmap (list N) (list N)))
          = [(go "A", go " x")]) as ->.
  { apply Permutation_singleton_r.
    rewrite range_order_Permutation. by rewrite map_to_list_singleton. }
  unfold os.WriteFile. rewrite Hw. do 2 eexists. split; [done |].
  split; [| split].
  - apply readEnvFileToMap_present; [done |]. simpl. apply lookup_insert_eq.
  - vm_compute. reflexivity.
  - intros Heq.
    apply (f_equal (fun m : gmap (list N) (list N) => m !! go "A")) in Heq.
    vm_compute in Heq. discriminate.
Qed.

(** ** The confirmation protocol *)

Ltac io_unfold :=
  unfold mbind, IO_bind, bind, mret, IO_ret, print, ReadLine.

Section Protocol.

Variable U : unicode.CaseTables.

Implicit Types (w : World) (m : gmap (list N) (list N)).
Implicit Types (path key value cur orig : list N).

Lemma same_store_refl w : spec.same_store w w.
Proof. by repeat split. Qed.

Lemma same_store_trans w1 w2 w3 :
  spec.same_store w1 w2 -> spec.same_store w2 w3 -> spec.same_store w1 w3.
Proof.
  unfold spec.same_store. intros (-> & -> & -> & -> & ->) (? & ? & ? & ? & ?).
  by repeat split.
Qed.

(** The loop of the attempts succeeds exactly when one of the lines typed
    next, trimmed, is the current value. *)
Lemma attempts_loop_spec left attempts cur w :
  exists w',
    attempts_loop left attempts cur w =
    (bool_decide (cur ∈ map strings.TrimSpace (spec.read_lines left (stdin w))), w')
    /\ spec.same_store w w'.
Proof.
  revert attempts w. induction left as [| left IH]; intros attempts w.
  - exists w. split; [| apply same_store_refl].
    reflexivity.
  - cbn [attempts_loop spec.read_lines]. io_unfold.
    cbn [stdin set_stdout].
    destruct (bufio.ReadString 10 (stdin w)) as [line rest] eqn:E.
    cbn [map].
    destruct (decide (strings.TrimSpace line = cur)) as [Heq | Hne].
    + rewrite bool_decide_eq_true_2 by done. eexists. split.
      * f_equal. symmetry. apply bool_decide_eq_true_2. rewrite Heq. by left.
      * by repeat split.
    + rewrite bool_decide_eq_false_2 by done.
      match goal with
      | |- context [attempts_loop left ?a cur ?w0] =>
          destruct (IH a w0) as (w' & -> & Hs)
      end.
      exists w'. split.
      * f_equal. cbn [stdin set_stdin set_stdout].
        apply bool_decide_ext. rewrite elem_of_cons.
        split; [by right | intros [-> | ?]; done].
      * eapply same_store_trans; [| exact Hs]. by repeat split.
Qed.

(** The confirmation is given exactly when the answer, trimmed and in
    lower case, is [yes], and one of the three lines typed after it,
    trimmed, is the current value. *)
Lemma promptOverwriteConfirmation_spec orig cur w resp rest :
  bufio.ReadString 10 (stdin w) = (resp, rest) ->
  exists w',
    promptOverwriteConfirmation U orig cur w =
    (bool_decide (strings.ToLower U (strings.TrimSpace resp) = go "yes")
     && bool_decide
          (cur ∈ map strings.TrimSpace (spec.read_lines maxAttempts rest)),
     w')
    /\ spec.same_store w w'.
Proof.
  intros E. unfold promptOverwriteConfirmation. io_unfold.
  cbn [stdin set_stdout]. rewrite E.
  destruct (decide (strings.ToLower U (strings.TrimSpace resp) = go "yes"))
    as [Heq | Hne].
  - rewrite (bool_decide_eq_true_2 _ Heq). cbn [negb andb].
    match goal with
    | |- context [attempts_loop maxAttempts 1 cur ?w0] =>
        destruct (attempts_loop_spec maxAttempts 1 cur w0) as (w' & -> & Hs)
    end.
    cbn [stdin set_stdin set_stdout] in *.
    destruct (bool_decide _).
    + exists w'. split; [done |].
      eapply same_store_trans; [| exact Hs]. by repeat split.
    + eexists. split; [done |].
      eapply same_store_trans; [| eapply same_store_trans; [exact Hs |]];
        by repeat split.
  - rewrite (bool_decide_eq_false_2 _ Hne). cbn [negb andb].
    eexists. split; [done |]. by repeat split.
Qed.

(** One call of the writer. *)
Lemma writeEnvMap_saved path m w :
  exists err w', writeEnvMap path m w = (err, w') /\ spec.saved path m w w' err
                 /\ stdin w' = stdin w /\ stdout w' = stdout w.
Proof.
  rewrite writeEnvMap_unfold. unfold os.WriteFile, spec.saved.
  destruct (write_faults w !! path) as [[errno | errno written] |] eqn:E;
    do 2 eexists; (split; [done |]); (split; [| done]);
    (eexists; split; [apply range_order_Permutation |]);
    (split; [done |]).
  - repeat split; try done. intros e [= <-]. by eexists.
  - repeat split; try done. intros e [= <-]. by eexists.
  - repeat split; try done. intros _. simpl. apply lookup_insert_eq.
Qed.

(** What loading leaves of the world when it yields a mapping with an
    entry. *)
Lemma load_nonempty path w m key cur :
  fst (readEnvFileToMap path w) = (m, None) -> m !! key = Some cur ->
  readEnvFileToMap path w = ((m, None), w).
Proof.
  intros Hl Hk. pose proof (readEnvFileToMap_world path w) as Hw.
  destruct (readEnvFileToMap path w) as [[m0 err] w'].
  simpl in Hl. injection Hl as -> ->.
  destruct Hw as (_ & _ & _ & _ & _ & _ & Hw). rewrite Hw; [done |].
  right. intros ->. by rewrite lookup_empty in Hk.
Qed.

Lemma load_same_store path w :
  forall m err w', readEnvFileToMap path w = ((m, err), w') ->
  stdin w' = stdin w /\ stdout w' = stdout w /\ writes w' = writes w
  /\ write_faults w' = write_faults w.
Proof.
  intros m err w' E. pose proof (readEnvFileToMap_world path w) as Hw.
  rewrite E in Hw. destruct Hw as (H1 & H2 & H3 & _ & H4 & _). auto.
Qed.

Lemma saved_from path m w0 w w' err :
  writes w = writes w0 -> write_faults w = write_faults w0 ->
  spec.saved path m w w' err -> spec.saved path m w0 w' err.
Proof.
  intros Hw Hf (entries & ? & ? & ? & ? & ?).
  exists entries. split; [done |]. split; [by rewrite <- Hw |].
  split; [by rewrite <- Hf |]. by split.
Qed.

(** Loading sees the files and the faults of opening, nothing else. *)
Lemma load_same path w w' :
  spec.same_store w w' ->
  fst (readEnvFileToMap path w') = fst (readEnvFileToMap path w).
Proof.
  intros (Hf & _ & Ho & _). unfold readEnvFileToMap, bind, os.OpenFile.
  rewrite Hf, Ho.
  destruct (open_faults w !! path); [done |].
  by destruct (files w !! path).
Qed.

(** The run on a key that the store has. *)
Lemma upsert_present path orig key value w m cur resp rest :
  fst (readEnvFileToMap path w) = (m, None) ->
  m !! key = Some cur ->
  bufio.ReadString 10 (stdin w) = (resp, rest) ->
  exists w1, spec.same_store w w1 /\
    AddOrUpdateEnvVarSecure U path orig key value w =
    if bool_decide (strings.ToLower U (strings.TrimSpace resp) = go "yes")
       && bool_decide
            (cur ∈ map strings.TrimSpace (spec.read_lines maxAttempts rest))
    then let (err, w') := writeEnvMap path (<[key := value]> m) w1 in
         ((false, true, err), w')
    else ((false, false, None), w1).
Proof.
  intros Hl Hk Hr. unfold AddOrUpdateEnvVarSecure. io_unfold.
  rewrite (load_nonempty _ _ _ _ _ Hl Hk), Hk.
  destruct (promptOverwriteConfirmation_spec orig cur w resp rest Hr)
    as (w1 & -> & Hs).
  exists w1. split; [done |].
  by destruct (_ && _).
Qed.

(** The run on a key that the store does not have. *)
Lemma upsert_absent path orig key value w m w1 :
  readEnvFileToMap path w = ((m, None), w1) ->
  m !! key = None ->
  AddOrUpdateEnvVarSecure U path orig key value w =
  let (err, w') := writeEnvMap path (<[key := value]> m) w1 in
  ((true, false, err), w').
Proof.
  intros Hl Hk. unfold AddOrUpdateEnvVarSecure. io_unfold.
  by rewrite Hl, Hk.
Qed.

(** The answer [yes] in any case of its letters is a confirmation. *)
Lemma ToLower_yes_any_case :
  Forall (fun s => strings.ToLower U s = go "yes")
    [go "yes"; go "Yes"; go "yEs"; go "yeS"; go "YEs"; go "YeS"; go "yES";
     go "YES"].
Proof. repeat constructor. Qed.

(** The value now stored, typed as it is, is a matching attempt. *)
Lemma exact_value_confirms path w m key cur rest :
  fst (readEnvFileToMap path w) = (m, None) ->
  m !! key = Some cur ->
  cur ++ [10] ∈ spec.read_lines maxAttempts rest ->
  cur ∈ map strings.TrimSpace (spec.read_lines maxAttempts rest).
Proof.
  intros Hl Hk Hin.
  destruct (readEnvFileToMap path w) as [[m0 err] w'] eqn:E.
  simpl in Hl. injection Hl as -> ->.
  apply loaded_trimmed in E. apply E in Hk as [_ Hcur].
  apply (list_elem_of_fmap_2 strings.TrimSpace) in Hin.
  by rewrite strings_facts.TrimSpace_newline, Hcur in Hin.
Qed.


(** (C2) When the store has the key, the run is [Cancelled] exactly when
    the answer is other than [yes], or none of the three lines typed next
    is the value now stored; and every [Cancelled] run leaves the files as
    they were and writes nothing: loading again gives the same mapping,
    the key with its value. *)
Theorem C2_cancelled_untouched path orig key value w m cur resp rest :
  fst (readEnvFileToMap path w) = (m, None) ->
  m !! key = Some cur ->
  bufio.ReadString 10 (stdin w) = (resp, rest) ->
  (strings.ToLower U (strings.TrimSpace resp) <> go "yes"
   \/ cur ∉ map strings.TrimSpace (spec.read_lines maxAttempts rest)
   <-> exists w',
         AddOrUpdateEnvVarSecure U path orig key value w
         = ((false, false, None), w'))
  /\ forall w',
       AddOrUpdateEnvVarSecure U path orig key value w
       = ((false, false, None), w') ->
       files w' = files w
       /\ writes w' = writes w
       /\ fst (readEnvFileToMap path w') = (m, None)
       /\ fst (fst (readEnvFileToMap path w')) !! key = Some cur.
Proof.
  intros Hl Hk Hr.
  destruct (upsert_present path orig key value w m cur resp rest Hl Hk Hr)
    as (w1 & Hs & ->).
  destruct (bool_decide (strings.ToLower U (strings.TrimSpace resp) = go "yes")
            && bool_decide
                 (cur ∈ map strings.TrimSpace (spec.read_lines maxAttempts rest)))
    eqn:Hb.
  - apply andb_true_iff in Hb as [Hyes Hin].
    apply bool_decide_eq_true in Hyes, Hin.
    destruct (writeEnvMap path (<[key := value]> m) w1) as [err w2].
    split; [| by intros w' [=]].
    split; [by intros [? | ?] | by intros [w' [=]]].
  - apply andb_false_iff in Hb.
    rewrite !bool_decide_eq_false in Hb. split.
    + split; [by exists w1 | done].
    + intros w' [= <-]. rewrite (load_same path w w1 Hs), Hl.
      destruct Hs as (Hf & Hw & _). by repeat split.
Qed.


(** (C4) A run writes the file at most once, and exactly when it
    reports [Added] or [Updated]; with neither flag, which is [Cancelled]
    or a failed load, it writes nothing, and a failed load is such a
    run. *)
Theorem C4_at_most_one_write path orig key value w :
  exists added updated err w' l,
    AddOrUpdateEnvVarSecure U path orig key value w
    = ((added, updated, err), w')
    /\ writes w' = writes w ++ l
    /\ length l = (if added || updated then 1 else 0)%nat
    /\ (forall e, snd (fst (readEnvFileToMap path w)) = Some e ->
        added = false /\ updated = false /\ err = Some e).
Proof.
  destruct (readEnvFileToMap path w) as [[m [e0 |]] w1] eqn:E.
  { exists false, false, (Some e0), w1, [].
    unfold AddOrUpdateEnvVarSecure. io_unfold. rewrite E.
    destruct (load_same_store path w m (Some e0) w1 E) as (_ & _ & Hw & _).
    split; [done |]. split; [by rewrite app_nil_r |]. split; [done |].
    by intros e [= <-]. }
  destruct (load_same_store path w m None w1 E) as (_ & _ & Hw & Hf).
  destruct (m !! key) as [cur |] eqn:Hk.
  - destruct (bufio.ReadString 10 (stdin w)) as [resp rest] eqn:Hr.
    destruct (upsert_present path orig key value w m cur resp rest)
      as (w2 & Hs & ->); [by rewrite E | done | done |].
    destruct (_ && _).
    + destruct (writeEnvMap_saved path (<[key := value]> m) w2)
        as (err & w' & -> & (entries & _ & Hwr & _) & _).
      exists false, true, err, w', [(path, spec.file_text entries)].
      destruct Hs as (_ & Hw2 & _). rewrite <- Hw2.
      by repeat split.
    + exists false, false, None, w2, [].
      destruct Hs as (_ & Hw2 & _). rewrite app_nil_r.
      by repeat split.
  - rewrite (upsert_absent path orig key value w m w1 E Hk).
    destruct (writeEnvMap_saved path (<[key := value]> m) w1)
      as (err & w' & -> & (entries & _ & Hwr & _) & _).
    exists true, false, err, w', [(path, spec.file_text entries)].
    rewrite <- Hw. by repeat split.
Qed.

End Protocol.

(** ** The prompts of [main] *)

Section Prompts.

Variable U : unicode.CaseTables.

Implicit Types (w : World) (l good rest : list N).


Lemma validateValue_cases raw :
  validateValue raw = ([], Some ErrForbiddenScript)
  \/ validateValue raw = (strings.TrimSpace raw, None).
Proof. unfold validateValue. destruct (regexp.MatchString _ _); auto. Qed.




Lemma ReadString_length delim s line rest :
  bufio.ReadString delim s = (line, rest) ->
  length s = (length line + length rest)%nat /\ (s <> [] -> line <> []).
Proof.
  revert line rest. induction s as [| c s IH]; intros line rest; simpl.
  - by intros [= <- <-].
  - destruct (c =? delim); [by intros [= <- <-] |].
    destruct (bufio.ReadString delim s) as [line' rest'].
    intros [= <- <-]. destruct (IH line' rest' eq_refl) as [Hlen _].
    simpl. split; [lia | done].
Qed.

(** The value prompt comes to an end on every input: when the input is
    used up, [ReadString] gives the empty text, which is a valid value. *)
Lemma promptValidInput_value_total fuel w :
  (length (stdin w) < fuel)%nat ->
  exists v w',
    promptValidInput fuel PromptValue validateValue w = (Some v, w')
    /\ (length (stdin w') <= length (stdin w))%nat
    /\ spec.same_store w w'.
Proof.
  revert w. induction fuel as [| fuel IH]; intros w Hlen; [lia |].
  cbn [promptValidInput]. io_unfold. cbn [stdin set_stdout].
  destruct (bufio.ReadString 10 (stdin w)) as [line rest] eqn:Hr.
  destruct (ReadString_length _ _ _ _ Hr) as [Hl Hne].
  destruct (validateValue_cases (strings.TrimSpace line)) as [E | E];
    rewrite E.
  - destruct (stdin w) as [| c s] eqn:Hs.
    { simpl in Hr. injection Hr as <- <-. discriminate E. }
    assert (line <> []) as Hline by (by apply Hne).
    destruct line as [| c' line']; [done |]. simpl in Hl, Hlen.
    match goal with
    | |- context [promptValidInput fuel _ _ ?w0] =>
        destruct (IH w0) as (v & w' & Hrun & Hlen' & Hst)
    end.
    { simpl. lia. }
    rewrite Hrun. exists v, w'. split; [done |]. simpl in Hlen'.
    split; [simpl; lia |].
    eapply same_store_trans; [| exact Hst]. by repeat split.
  - do 2 eexists. split; [done |]. simpl. split; [lia | by repeat split].
Qed.

(** A prompt whose validator accepts everything returns the first line. *)
Lemma promptValidInput_accept_all fuel p w line rest :
  bufio.ReadString 10 (stdin w) = (line, rest) ->
  promptValidInput (S fuel) p (fun s => (s, None)) w =
  (Some (strings.TrimSpace line),
   mkWorld rest (stdout w ++ [EvPrompt p])
           (files w) (open_faults w) (write_faults w) (map_seed w) (writes w)).
Proof.
  intros Hr. cbn [promptValidInput]. io_unfold. cbn [stdin set_stdout].
  by rewrite Hr.
Qed.

(** (X20) [main] comes to an end on every input: the rounds of its
    prompts are at most the runes of the input and one. *)
Lemma main_terminates w :
  exists w', main U (S (length (stdin w))) w = (Some tt, w').
Proof.
  unfold main, mbind, IO_bind, bind, print. cbv beta iota.
  destruct (bufio.ReadString 10 (stdin w)) as [line rest] eqn:Hr.
  destruct (ReadString_length _ _ _ _ Hr) as [Hl _].
  rewrite (promptValidInput_accept_all _ _ _ line rest) by done.
  destruct (formatAndValidateKey U (strings.TrimSpace line)) as [k [e |]];
    [by eexists |].
  match goal with
  | |- context [promptValidInput _ PromptValue validateValue ?w0] =>
      destruct (promptValidInput_value_total (S (length (stdin w))) w0)
        as (v & w1 & -> & _ & _)
  end.
  { simpl. lia. }
  destruct (AddOrUpdateEnvVarSecure U (go ".env") (strings.TrimSpace line) k v w1)
    as [[[added updated] [e |]] w2]; [by eexists |].
  destruct added; [by eexists |]. destruct updated; by eexists.
Qed.


End Prompts.


(** ** The reader on some files *)

(** A value may have [=] in it; of two lines for a key the last wins;
    blank lines, comments and lines without [=] give nothing. *)
Example load_sample :
  fold_left scan_line
    (bufio.Lines (spec.typed [go "# settings"; go ""; go "A = x=y ";
                              go "junk"; go "B=1"; go "B=2"])) ∅
  = ({[ go "A" := go "x=y"; go "B" := go "2" ]} : gmap (list N) (list N)).
Proof. vm_compute. reflexivity. Qed.

(** A line of 65536 bytes does not fit the scanner: the loop ends there,
    and [readEnvFileToMap], which does not look at [scanner.Err()], returns
    what it has read so far, here nothing, and no error. *)
Example load_stops_at_long_line :
  let long := repeat 120 (N.to_nat 65534) in
  bufio.fits (go "A=" ++ long) = false
  /\ fold_left scan_line
       (bufio.Lines (spec.file_text [(go "A", long); (go "B", go "2")])) ∅
     = (∅ : gmap (list N) (list N)).
Proof. split; vm_compute; reflexivity. Qed.

(** ** The program on the example worlds *)

(** A confirmed update: two attempts, one write, the new file. *)
Example run_update :
  AddOrUpdateEnvVarSecure unicode.caseless (go ".env") (go "a") (go "A_KEY")
    (go "new") examples.w_update
  = ((false, true, None),
     mkWorld []
       [EvKeyExists (go "a"); EvEnterCurrent 1 3; EvMismatch;
        EvEnterCurrent 2 3]
       {[ go ".env" := spec.typed [go "B=2"; go "A_KEY=new"] ]} ∅ ∅ [1%nat]
       [(go ".env", spec.typed [go "B=2"; go "A_KEY=new"])]).
Proof. vm_compute. reflexivity. Qed.

(** Three misses: no write; on the terminal the fourth line is left
    unread. *)
Example run_misses :
  AddOrUpdateEnvVarSecure unicode.caseless (go ".env") (go "a") (go "A_KEY")
    (go "new") examples.w_misses
  = ((false, false, None),
     mkWorld (spec.typed [go "1"])
       [EvKeyExists (go "a"); EvEnterCurrent 1 3; EvMismatch;
        EvEnterCurrent 2 3; EvMismatch; EvEnterCurrent 3 3; EvMismatch;
        EvTooManyAttempts]
       {[ go ".env" := examples.file_ab ]} ∅ ∅ [1%nat] []).
Proof. vm_compute. reflexivity. Qed.

(** A whole run of [main]: the key [db password] becomes
    [DB_PASSWORD_KEY], the Cyrillic value is asked again, and the entry is
    added to a file that did not exist. *)
Example run_main :
  main unicode.caseless 5
    (mkWorld (spec.typed [go " db password "; [0x434; 0x430]; go "s3cret"])
             [] ∅ ∅ ∅ [] [])
  = (Some tt,
     mkWorld []
       [EvBanner; EvPrompt PromptKey; EvPrompt PromptValue;
        EvError ErrForbiddenScript; EvPrompt PromptValue; EvAdded]
       {[ go ".env" := spec.typed [go "DB_PASSWORD_KEY=s3cret"] ]} ∅ ∅ []
       [(go ".env", spec.typed [go "DB_PASSWORD_KEY=s3cret"])]).
Proof. vm_compute. reflexivity. Qed.

(** ** The theorems at work on the example worlds *)

(** In [w_misses] three misses cancel the update of [A_KEY]. *)
Lemma C2_witness :
  (strings.ToLower unicode.caseless (strings.TrimSpace (go "yes" ++ [10]))
   <> go "yes"
   \/ go "1" ∉ map strings.TrimSpace
                  (spec.read_lines maxAttempts
                     (spec.typed [go "0"; go "2"; go "3"; go "1"]))
   <-> exists w',
         AddOrUpdateEnvVarSecure unicode.caseless (go ".env") (go "a")
           (go "A_KEY") (go "new") examples.w_misses
         = ((false, false, None), w'))
  /\ forall w',
       AddOrUpdateEnvVarSecure unicode.caseless (go ".env") (go "a")
         (go "A_KEY") (go "new") examples.w_misses
       = ((false, false, None), w') ->
       files w' = files examples.w_misses
       /\ writes w' = writes examples.w_misses
       /\ fst (readEnvFileToMap (go ".env") w') = (examples.m_ab, None)
       /\ fst (fst (readEnvFileToMap (go ".env") w')) !! go "A_KEY"
          = Some (go "1").
Proof.
  apply (C2_cancelled_untouched unicode.caseless (go ".env") (go "a")
           (go "A_KEY") (go "new") examples.w_misses examples.m_ab (go "1")
           (go "yes" ++ [10]) (spec.typed [go "0"; go "2"; go "3"; go "1"])).
  - vm_compute. reflexivity.
  - vm_compute. reflexivity.
  - vm_compute. reflexivity.
Defined.

(** The store [m_ab] is read back as it was saved. *)
Lemma C8_witness :
  exists w1,
    writeEnvMap (go ".env") examples.m_ab examples.w_update = (None, w1)
    /\ readEnvFileToMap (go ".env") w1 = ((examples.m_ab, None), w1).
Proof.
  apply (C8_save_then_load (go ".env") examples.m_ab examples.w_update).
  - vm_compute. reflexivity.
  - vm_compute. reflexivity.
  - apply map_Forall_insert_2; [vm_compute; reflexivity |].
    apply map_Forall_singleton. vm_compute. reflexivity.
Defined.



(** * Further properties of the program *)

(** ** Trimming, again *)

Section TrimMore.

Variable f : N -> bool.

Lemma TrimLeftFunc_split s :
  exists l1, s = l1 ++ strings.TrimLeftFunc s f
             /\ Forall (fun c => f c = true) l1.
Proof.
  induction s as [| r s (l1 & IH & Hl1)]; simpl; [by exists [] |].
  destruct (f r) eqn:E; [| by exists []].
  exists (r :: l1). split; [simpl; by rewrite <- IH | by constructor].
Qed.

Lemma TrimRightFunc_split s :
  exists l2, s = strings.TrimRightFunc s f ++ l2
             /\ Forall (fun c => f c = true) l2.
Proof.
  induction s as [| r s (l2 & IH & Hl2)]; simpl; [by exists [] |].
  destruct (strings.TrimRightFunc s f) as [| a t] eqn:E.
  - simpl in IH. subst l2. destruct (f r) eqn:Er.
    + exists (r :: s). split; [done | by constructor].
    + exists s. by split.
  - exists l2. split; [simpl in *; by rewrite <- IH | done].
Qed.

(** Trimming keeps every rune that [f] does not trim. *)
Lemma TrimFunc_keeps s x : x ∈ s -> f x = false -> x ∈ strings.TrimFunc s f.
Proof.
  intros Hin Hx. unfold strings.TrimFunc.
  destruct (TrimLeftFunc_split s) as (l1 & H1 & Hl1).
  rewrite H1 in Hin. apply elem_of_app in Hin as [Hin | Hin].
  { rewrite Forall_forall in Hl1. apply Hl1 in Hin. congruence. }
  destruct (TrimRightFunc_split (strings.TrimLeftFunc s f)) as (l2 & H2 & Hl2).
  rewrite H2 in Hin. apply elem_of_app in Hin as [Hin | Hin]; [done |].
  rewrite Forall_forall in Hl2. apply Hl2 in Hin. congruence.
Qed.

Lemma TrimFunc_snoc l c :
  f c = true -> strings.TrimFunc (l ++ [c]) f = strings.TrimFunc l f.
Proof.
  intros Hc. unfold strings.TrimFunc. rewrite strings_facts.TrimLeftFunc_snoc.
  destruct (strings.TrimLeftFunc l f) as [| a t] eqn:E; [by rewrite Hc |].
  by rewrite strings_facts.TrimRightFunc_snoc.
Qed.

Lemma TrimFunc_app_trimmed l ws :
  Forall (fun c => f c = true) ws ->
  strings.TrimFunc (l ++ ws) f = strings.TrimFunc l f.
Proof.
  induction ws as [| c ws IH] using rev_ind; intros Hws.
  - by rewrite app_nil_r.
  - apply Forall_app in Hws as [Hws Hc]. apply Forall_cons_1 in Hc as [Hc _].
    rewrite app_assoc, TrimFunc_snoc by done. by apply IH.
Qed.

Lemma TrimFunc_surrounded ws1 s ws2 :
  Forall (fun c => f c = true) ws1 -> Forall (fun c => f c = true) ws2 ->
  strings.TrimFunc (ws1 ++ s ++ ws2) f = strings.TrimFunc s f.
Proof.
  intros H1 H2. rewrite app_assoc, TrimFunc_app_trimmed by done.
  unfold strings.TrimFunc. by rewrite strings_facts.TrimLeftFunc_skip.
Qed.

Lemma TrimFunc_clean s :
  Forall (fun c => f c = false) s -> strings.TrimFunc s f = s.
Proof.
  intros Hs. unfold strings.TrimFunc.
  assert (strings.TrimLeftFunc s f = s) as ->.
  { destruct Hs as [| c s Hc _]; [done |]. simpl. by rewrite Hc. }
  induction Hs as [| c s Hc Hs IH]; [done |].
  simpl. rewrite IH. destruct s; [by rewrite Hc | done].
Qed.

Lemma TrimFunc_blank s :
  Forall (fun c => f c = true) s -> strings.TrimFunc s f = [].
Proof.
  intros Hs. unfold strings.TrimFunc.
  rewrite <- (app_nil_r s), strings_facts.TrimLeftFunc_skip by done. done.
Qed.

End TrimMore.

Lemma map_fixed {A} (g : A -> A) (l : list A) :
  Forall (fun x => g x = x) l -> map g l = l.
Proof. induction 1 as [| x l Hx _ IH]; simpl; [done |]. by rewrite Hx, IH. Qed.

(** ** The normaliser and the validator on their own results *)

Section NormalizerMore.

Variable U : unicode.CaseTables.

(** An upper-case letter or an underscore is not white space, is not a
    space, and is its own upper case. *)
Lemma upper_or_underscore_plain c :
  spec.upper_or_underscore c = true ->
  unicode.IsSpace c = false /\ (c =? 32) = false /\ unicode.ToUpper U c = c
  /\ c <> 61 /\ c <> 35 /\ c <> 10.
Proof.
  unfold spec.upper_or_underscore.
  rewrite orb_true_iff, andb_true_iff, !N.leb_le, N.eqb_eq. intros H.
  assert (65 <= c <= 95) as Hc by lia.
  unfold unicode.IsSpace, unicode.ToUpper.
  rewrite (proj2 (N.leb_le c 0xFF)), (proj2 (N.leb_le c 0x7F)) by lia.
  repeat rewrite (proj2 (N.eqb_neq c _)) by lia.
  assert ((97 <=? c) = false) as -> by (apply N.leb_gt; lia).
  repeat split; try done; lia.
Qed.

Lemma canonical_runes k :
  forallb spec.upper_or_underscore k = true ->
  Forall (fun c => unicode.IsSpace c = false) k
  /\ Forall (fun c => (if c =? 32 then 95 else c) = c) k
  /\ Forall (fun c => unicode.ToUpper U c = c) k
  /\ (61 ∉ k) /\ (10 ∉ k) /\ strings.HasPrefix k (go "#") = false.
Proof.
  intros Hk. rewrite forallb_forall in Hk.
  assert (forall c, c ∈ k -> spec.upper_or_underscore c = true) as Hall.
  { intros c Hc. by apply Hk, list_elem_of_In. }
  clear Hk. repeat split.
  - apply Forall_forall. intros c Hc. by apply upper_or_underscore_plain, Hall.
  - apply Forall_forall. intros c Hc.
    apply Hall, upper_or_underscore_plain in Hc as (_ & -> & _). done.
  - apply Forall_forall. intros c Hc. by apply upper_or_underscore_plain, Hall.
  - intros Hc. apply Hall, upper_or_underscore_plain in Hc. tauto.
  - intros Hc. apply Hall, upper_or_underscore_plain in Hc. tauto.
  - destruct k as [| c k']; [done |]. change (go "#") with [35].
    rewrite strings_facts.HasPrefix_rune. apply bool_decide_eq_false_2.
    intros ->. assert (35 ∈ 35 :: k') as Hc by (by left).
    apply Hall, upper_or_underscore_plain in Hc. tauto.
Qed.

(** A text of upper-case letters and underscores that ends in [_KEY] is
    its own normal form. *)
Lemma canonical_fixed k :
  forallb spec.upper_or_underscore k = true ->
  strings.HasSuffix k (go "_KEY") = true ->
  formatAndValidateKey U k = (k, None).
Proof.
  intros Hk Hsuf. destruct (canonical_runes k Hk) as (Hsp & H32 & Hup & _).
  rewrite formatAndValidateKey_normalize. unfold spec.normalize.
  rewrite trim_TrimSpace. unfold strings.TrimSpace.
  rewrite TrimFunc_clean by done.
  rewrite (map_fixed _ k H32), (map_fixed _ k Hup), Hk.
  rewrite ends_with_KEY_HasSuffix, Hsuf.
  apply strings_facts.HasSuffix_spec in Hsuf as [p ->].
  rewrite bool_decide_eq_false_2; [done |]. by destruct p.
Qed.

(** The keys that the normaliser returns are made of upper-case letters
    and underscores and end in [_KEY]. *)
Lemma normalized_canonical raw k :
  formatAndValidateKey U raw = (k, None) ->
  forallb spec.upper_or_underscore k = true
  /\ strings.HasSuffix k (go "_KEY") = true.
Proof.
  intros E. apply formatAndValidateKey_ok in E as (s & Hall & Hk).
  destruct Hk as [[-> Hsuf] | ->]; [done |].
  split; [by rewrite forallb_app, Hall | ].
  apply strings_facts.HasSuffix_spec. by exists s.
Qed.

(** (X1) Normalising is idempotent: a key that [formatAndValidateKey]
    returns is returned as it is when it is given back to it. *)
Theorem normalize_idempotent raw k :
  formatAndValidateKey U raw = (k, None) ->
  formatAndValidateKey U k = (k, None).
Proof.
  intros E. apply normalized_canonical in E as [Hk Hsuf].
  by apply canonical_fixed.
Qed.

(** (X2) A key of white space only, the empty key among them, is
    rejected. *)
Theorem normalize_rejects_blank raw :
  Forall (fun c => unicode.IsSpace c = true) raw ->
  formatAndValidateKey U raw = ([], Some ErrInvalidCharacters).
Proof.
  intros Hraw. unfold formatAndValidateKey, strings.TrimSpace.
  by rewrite TrimFunc_blank.
Qed.

(** (X3) A key with an ASCII rune that is not a letter, an underscore or
    white space (a digit, a punctuation mark) is rejected, wherever the
    rune is. *)
Theorem normalize_rejects_ascii_symbol raw c :
  c ∈ raw ->
  c <= 0x7F ->
  unicode.IsSpace c = false ->
  ~ (65 <= c <= 90) -> ~ (97 <= c <= 122) -> c <> 95 ->
  formatAndValidateKey U raw = ([], Some ErrInvalidCharacters).
Proof.
  intros Hin Hascii Hsp Hup Hlow Hus.
  rewrite formatAndValidateKey_normalize. unfold spec.normalize.
  rewrite trim_TrimSpace.
  set (s := map (unicode.ToUpper U) _).
  assert (c ∈ s) as Hs.
  { apply (TrimFunc_keeps unicode.IsSpace) in Hin; [| done].
    apply (list_elem_of_fmap_2 (fun c => if c =? 32 then 95 else c)) in Hin.
    apply (list_elem_of_fmap_2 (unicode.ToUpper U)) in Hin.
    assert ((c =? 32) = false) as E32.
    { apply N.eqb_neq. intros ->. discriminate Hsp. }
    rewrite E32 in Hin. unfold unicode.ToUpper at 1 in Hin.
    rewrite (proj2 (N.leb_le c 0x7F)) in Hin by done.
    destruct ((97 <=? c) && (c <=? 122)) eqn:E; [| done].
    apply andb_true_iff in E as [?%N.leb_le ?%N.leb_le]. lia. }
  destruct (forallb spec.upper_or_underscore s) eqn:Hall; [| done].
  rewrite forallb_forall in Hall.
  apply list_elem_of_In, Hall in Hs. unfold spec.upper_or_underscore in Hs.
  rewrite orb_true_iff, andb_true_iff, !N.leb_le, N.eqb_eq in Hs. lia.
Qed.

(** (X4) White space around the text typed changes nothing: the key, and
    the value, are those of the text without it. *)
Theorem surrounding_space_ignored ws1 raw ws2 :
  Forall (fun c => unicode.IsSpace c = true) ws1 ->
  Forall (fun c => unicode.IsSpace c = true) ws2 ->
  formatAndValidateKey U (ws1 ++ raw ++ ws2) = formatAndValidateKey U raw
  /\ validateValue (ws1 ++ raw ++ ws2) = validateValue raw.
Proof.
  intros H1 H2. unfold formatAndValidateKey, validateValue, strings.TrimSpace.
  by rewrite TrimFunc_surrounded.
Qed.

(** (X5) A value that the validator returns is trimmed, has no Cyrillic
    letter, and is returned as it is when it is given back to it. *)
Theorem validated_value_fixed raw v :
  validateValue raw = (v, None) ->
  strings.TrimSpace v = v
  /\ existsb spec.cyrillic_letter v = false
  /\ validateValue v = (v, None).
Proof.
  rewrite validateValue_validate. unfold spec.validate.
  rewrite trim_TrimSpace.
  destruct (existsb spec.cyrillic_letter (strings.TrimSpace raw)) eqn:E;
    [done |].
  intros [= <-].
  assert (strings.TrimSpace (strings.TrimSpace raw) = strings.TrimSpace raw)
    as Hidem by apply strings_facts.TrimFunc_idem.
  split; [done |]. split; [done |].
  rewrite validateValue_validate. unfold spec.validate.
  by rewrite trim_TrimSpace, Hidem, E.
Qed.

(** (X6) Every ASCII text is a valid value: digits, punctuation and Latin
    letters pass, and the value is the text trimmed. *)
Theorem validate_accepts_ascii raw :
  Forall (fun c => c <= 0x7F) raw ->
  validateValue raw = (strings.TrimSpace raw, None).
Proof.
  intros Hraw. rewrite validateValue_validate. unfold spec.validate.
  rewrite trim_TrimSpace.
  destruct (existsb spec.cyrillic_letter (strings.TrimSpace raw)) eqn:E;
    [| done].
  apply existsb_exists in E as (c & Hin & Hc).
  apply list_elem_of_In, strings_facts.TrimFunc_elem_of in Hin.
  rewrite Forall_forall in Hraw. apply Hraw in Hin.
  unfold spec.cyrillic_letter in Hc.
  rewrite !orb_true_iff, andb_true_iff, !N.leb_le, !N.eqb_eq in Hc. lia.
Qed.

End NormalizerMore.

(** ** The reader and the writer, again *)

Section StoreMore.

Implicit Types (env m : gmap (list N) (list N)) (k v line : list N).
Implicit Types (w : World) (path data : list N).




Lemma clean_entry_line before after :
  10 ∉ before ++ 61 :: after -> 61 ∉ before ->
  spec.clean_entry (strings.TrimSpace before) (strings.TrimSpace after).
Proof.
  rewrite elem_of_app, elem_of_cons. intros Hnl Hnin.
  unfold spec.clean_entry.
  split; [apply strings_facts.TrimFunc_idem |].
  split; [apply strings_facts.TrimFunc_idem |].
  repeat split; intros H%strings_facts.TrimFunc_elem_of; tauto.
Qed.

Lemma fold_scan_line_clean ls env :
  Forall (fun line => 10 ∉ line) ls ->
  map_Forall spec.clean_entry env ->
  map_Forall spec.clean_entry (fold_left scan_line ls env).
Proof.
  intros Hls. revert env. induction Hls as [| l ls Hl _ IH]; intros env Henv.
  - done.
  - simpl. apply IH.
    destruct (scan_line_cases env l)
      as [-> | (before & after & -> & Hnin & ->)]; [done |].
    apply map_Forall_insert_2; [| done]. by apply clean_entry_line.
Qed.

Lemma Lines_no_newline data : Forall (fun line => 10 ∉ line) (bufio.Lines data).
Proof.
  apply Forall_forall. intros line Hin.
  apply bufio_facts.Lines_elem in Hin as (raw & -> & _ & Hnl).
  destruct (bufio_facts.dropCR_prefix raw) as [l2 Hraw].
  intros Hin. apply Hnl. rewrite Hraw. apply elem_of_app. by left.
Qed.

(** (X7) Whatever the file holds, every entry of the mapping read from
    it has a trimmed key and a trimmed value, no [=] in its key, and no
    newline in either. *)
Theorem loaded_entries_clean path w :
  map_Forall spec.clean_entry (fst (fst (readEnvFileToMap path w))).
Proof.
  destruct (open_faults w !! path) as [errno |] eqn:Ho.
  { rewrite (readEnvFileToMap_fault _ _ _ Ho). apply map_Forall_empty. }
  destruct (files w !! path) as [data |] eqn:Hf.
  - rewrite (readEnvFileToMap_present _ _ _ Ho Hf). simpl.
    apply fold_scan_line_clean; [apply Lines_no_newline |].
    apply map_Forall_empty.
  - rewrite (readEnvFileToMap_absent _ _ Ho Hf). apply map_Forall_empty.
Qed.


Lemma dropCR_cases l : bufio.dropCR l = l \/ l = bufio.dropCR l ++ [13].
Proof.
  induction l as [| c l IH]; [by left |].
  destruct l as [| d l'].
  - simpl. destruct (N.eqb_spec c 13) as [-> | ?]; [by right | by left].
  - change (bufio.dropCR (c :: d :: l')) with (c :: bufio.dropCR (d :: l')).
    destruct IH as [-> | IH]; [by left |].
    right. cbn [app]. by rewrite <- IH.
Qed.

(** A carriage return at the end of a line changes nothing of what the
    line gives. *)
Lemma scan_line_CR env l : scan_line env (l ++ [13]) = scan_line env l.
Proof.
  unfold scan_line. change (go "#") with [35]. change (go "=") with [61].
  assert (strings.TrimSpace (l ++ [13]) = strings.TrimSpace l) as ->.
  { by apply TrimFunc_snoc. }
  assert (strings.HasPrefix (l ++ [13]) [35] = strings.HasPrefix l [35]) as ->.
  { destruct l; [done |]. cbn [app]. by rewrite !strings_facts.HasPrefix_rune. }
  destruct (_ || _); [done |].
  destruct (decide (61 ∈ l)) as [Hin | Hnin].
  - apply list_elem_of_split_l in Hin as (b & a & -> & Hb).
    rewrite <- app_assoc. cbn [app].
    rewrite !strings_facts.SplitN_cut by done. cbn [length Nat.eqb nth].
    assert (strings.TrimSpace (a ++ [13]) = strings.TrimSpace a) as ->; [| done].
    by apply TrimFunc_snoc.
  - rewrite !strings_facts.SplitN_whole; [done | done |].
    rewrite elem_of_app, list_elem_of_singleton. intros [? | ?]; done.
Qed.

Lemma scan_line_dropCR env l : scan_line env (bufio.dropCR l) = scan_line env l.
Proof.
  destruct (dropCR_cases l) as [-> | H]; [done |].
  rewrite H at 2. by rewrite scan_line_CR.
Qed.

Lemma fold_scan_line_dropCR ls env :
  fold_left scan_line (map bufio.dropCR ls) env = fold_left scan_line ls env.
Proof.
  revert env. induction ls as [| l ls IH]; intros env; [done |].
  simpl. by rewrite scan_line_dropCR, IH.
Qed.

Lemma fold_scan_line_CR ls env :
  fold_left scan_line (map (fun l => l ++ [13]) ls) env
  = fold_left scan_line ls env.
Proof.
  revert env. induction ls as [| l ls IH]; intros env; [done |].
  simpl. by rewrite scan_line_CR, IH.
Qed.

Lemma raw_lines_typed ls :
  Forall (fun l => 10 ∉ l) ls -> bufio.raw_lines (spec.typed ls) = ls.
Proof.
  unfold spec.typed. induction 1 as [| l ls Hl _ IH]; [done |].
  cbn [map concat]. rewrite <- app_assoc. cbn [app].
  by rewrite bufio_facts.raw_lines_line, IH.
Qed.

Lemma typed_crlf_typed ls :
  spec.typed_crlf ls = spec.typed (map (fun l => l ++ [13]) ls).
Proof.
  unfold spec.typed_crlf, spec.typed. induction ls as [| l ls IH]; [done |].
  cbn [map concat]. rewrite IH. by rewrite <- !app_assoc.
Qed.

(** (X9) A file with Windows line ends is read as the same file with
    plain newlines, if its lines, carriage return and all, fit the line
    reader. *)
Theorem crlf_file_loads_alike path w1 w2 ls :
  open_faults w1 !! path = None ->
  open_faults w2 !! path = None ->
  files w1 !! path = Some (spec.typed_crlf ls) ->
  files w2 !! path = Some (spec.typed ls) ->
  Forall (fun l => 10 ∉ l) ls ->
  Forall (fun l => bufio.fits (l ++ [13]) = true) ls ->
  fst (readEnvFileToMap path w1) = fst (readEnvFileToMap path w2).
Proof.
  intros Ho1 Ho2 Hf1 Hf2 Hnl Hfits.
  rewrite (readEnvFileToMap_present _ _ _ Ho1 Hf1).
  rewrite (readEnvFileToMap_present _ _ _ Ho2 Hf2). simpl. f_equal.
  unfold bufio.Lines. rewrite typed_crlf_typed, !raw_lines_typed; [| done |].
  - rewrite !bufio_facts.while_fits_all, !fold_scan_line_dropCR.
    + apply fold_scan_line_CR.
    + eapply Forall_impl; [exact Hfits |]. intros l Hl.
      unfold bufio.fits in *. apply N.ltb_lt in Hl. apply N.ltb_lt.
      rewrite bufio_facts.len_app in Hl. lia.
    + by apply Forall_map.
  - apply Forall_map. eapply Forall_impl; [exact Hnl |].
    intros l Hl. rewrite elem_of_app, list_elem_of_singleton.
    intros [? | ?]; done.
Qed.


End StoreMore.

(** ** Runs of [AddOrUpdateEnvVarSecure], again *)

Section ProtocolMore.

Variable U : unicode.CaseTables.

Implicit Types (w : World) (m : gmap (list N) (list N)).
Implicit Types (path key value cur orig p : list N).

(** Loading touches no file but, at most, the one it creates. *)
Lemma load_frame path w p :
  p <> path ->
  files (snd (readEnvFileToMap path w)) !! p = files w !! p.
Proof.
  intros Hp.
  destruct (open_faults w !! path) as [errno |] eqn:Ho.
  { by rewrite (readEnvFileToMap_fault _ _ _ Ho). }
  destruct (files w !! path) as [data |] eqn:Hf.
  - by rewrite (readEnvFileToMap_present _ _ _ Ho Hf).
  - rewrite (readEnvFileToMap_absent _ _ Ho Hf). simpl.
    by apply lookup_insert_ne.
Qed.

Lemma load_ok_no_fault path w m w0 :
  readEnvFileToMap path w = ((m, None), w0) -> open_faults w !! path = None.
Proof.
  intros Hl. destruct (open_faults w !! path) as [errno |] eqn:Ho; [| done].
  by rewrite (readEnvFileToMap_fault _ _ _ Ho) in Hl.
Qed.

(** The entries read from a file are storable, unless their key begins
    with [#]. *)
Lemma loaded_storable path w m err w0 :
  readEnvFileToMap path w = ((m, err), w0) ->
  map_Forall (fun k v => strings.HasPrefix k (go "#") = false ->
                         spec.storable k v = true) m.
Proof.
  destruct (open_faults w !! path) as [errno |] eqn:Ho.
  { rewrite (readEnvFileToMap_fault _ _ _ Ho). intros [= <- _ _].
    apply map_Forall_empty. }
  destruct (files w !! path) as [data |] eqn:Hf.
  - rewrite (readEnvFileToMap_present _ _ _ Ho Hf). intros [= <- _ _].
    apply Lines_storable.
  - rewrite (readEnvFileToMap_absent _ _ Ho Hf). intros [= <- _ _].
    apply map_Forall_empty.
Qed.

(** The writer touches no other file and no fault. *)
Lemma writeEnvMap_frame path m w :
  (forall p, p <> path ->
     files (snd (writeEnvMap path m w)) !! p = files w !! p)
  /\ open_faults (snd (writeEnvMap path m w)) = open_faults w
  /\ write_faults (snd (writeEnvMap path m w)) = write_faults w.
Proof.
  rewrite writeEnvMap_unfold. unfold os.WriteFile.
  destruct (write_faults w !! path) as [[errno | errno written] |];
    simpl; (split; [| done]); intros p Hp; try done;
    by apply lookup_insert_ne.
Qed.

(** The run when loading fails. *)
Lemma upsert_load_error path orig key value w m e w1 :
  readEnvFileToMap path w = ((m, Some e), w1) ->
  AddOrUpdateEnvVarSecure U path orig key value w
  = ((false, false, Some e), w1).
Proof.
  intros E. unfold AddOrUpdateEnvVarSecure. io_unfold. by rewrite E.
Qed.

(** A run in full: what it leaves alone, and that it either writes
    nothing, with neither flag, or hands the loaded mapping with the new
    entry to the writer, once, with one flag. *)
Lemma upsert_run path orig key value w added updated err w' :
  AddOrUpdateEnvVarSecure U path orig key value w
  = ((added, updated, err), w') ->
  (forall p, p <> path -> files w' !! p = files w !! p)
  /\ open_faults w' = open_faults w
  /\ write_faults w' = write_faults w
  /\ (added || updated = false /\ writes w' = writes w
      \/ added || updated = true
         /\ exists m, fst (readEnvFileToMap path w) = (m, None)
                      /\ spec.saved path (<[key := value]> m) w w' err).
Proof.
  intros Hrun.
  pose proof (readEnvFileToMap_world path w) as Hworld.
  pose proof (load_frame path w) as Hframe.
  destruct (readEnvFileToMap path w) as [[m [e0 |]] w1] eqn:E;
    destruct Hworld as (_ & _ & Hws & Hof & Hwf & _ & _); simpl in Hframe.
  { rewrite (upsert_load_error _ _ _ _ _ _ _ _ E) in Hrun.
    injection Hrun as <- <- <- <-. split; [done |]. split; [done |].
    split; [done |]. by left. }
  destruct (m !! key) as [cur |] eqn:Hk.
  - destruct (bufio.ReadString 10 (stdin w)) as [resp rest] eqn:Hr.
    destruct (upsert_present U path orig key value w m cur resp rest)
      as (w2 & Hs & Hrun'); [by rewrite E | done | done |].
    rewrite Hrun' in Hrun. clear Hrun'.
    destruct Hs as (Hf2 & Hw2 & Ho2 & Hwf2 & _).
    destruct (_ && _).
    + pose proof (writeEnvMap_frame path (<[key := value]> m) w2)
        as (Hfr & Hfo & Hfw).
      destruct (writeEnvMap_saved path (<[key := value]> m) w2)
        as (err' & w3 & Hwr & Hsaved & _).
      rewrite Hwr in Hrun, Hfr, Hfo, Hfw. simpl in Hfr, Hfo, Hfw.
      injection Hrun as <- <- <- <-.
      split; [intros p Hp; by rewrite Hfr, Hf2 |].
      split; [by rewrite Hfo |]. split; [by rewrite Hfw |].
      right. split; [done |]. exists m. split; [done |].
      by eapply saved_from.
    + injection Hrun as <- <- <- <-.
      split; [intros p Hp; by rewrite Hf2 |].
      split; [done |]. split; [done |]. by left.
  - rewrite (upsert_absent U path orig key value w m w1 E Hk) in Hrun.
    pose proof (writeEnvMap_frame path (<[key := value]> m) w1)
      as (Hfr & Hfo & Hfw).
    destruct (writeEnvMap_saved path (<[key := value]> m) w1)
      as (err' & w3 & Hwr & Hsaved & _).
    rewrite Hwr in Hrun, Hfr, Hfo, Hfw. simpl in Hfr, Hfo, Hfw.
    injection Hrun as <- <- <- <-.
    split; [intros p Hp; by rewrite Hfr, Hframe |].
    split; [by rewrite Hfo |]. split; [by rewrite Hfw |].
    right. split; [done |]. exists m. split; [done |].
    by eapply saved_from.
Qed.



(** (X12) After a run that wrote without error, the file is read back as
    the mapping loaded before with the new entry in it, if the entry is
    storable and no key loaded begins with [#]. *)
Theorem upsert_then_load path orig key value w m w0 added updated w' :
  readEnvFileToMap path w = ((m, None), w0) ->
  map_Forall (fun k _ => strings.HasPrefix k (go "#") = false) m ->
  spec.storable key value = true ->
  AddOrUpdateEnvVarSecure U path orig key value w
  = ((added, updated, None), w') ->
  added || updated = true ->
  readEnvFileToMap path w' = ((<[key := value]> m, None), w').
Proof.
  intros Hl Hhash Hkv Hrun Hflag.
  destruct (upsert_run _ _ _ _ _ _ _ _ _ Hrun)
    as (_ & Ho & _ & [[Hno _] | (_ & m' & Hm' & Hsaved)]); [congruence |].
  rewrite Hl in Hm'. simpl in Hm'. injection Hm' as <-.
  apply (load_saved path (<[key := value]> m) w w'); [done | |].
  - rewrite Ho. by eapply load_ok_no_fault.
  - apply map_Forall_insert_2; [done |].
    intros k v Hk. apply (loaded_storable _ _ _ _ _ Hl k v Hk).
    by apply (Hhash k v).
Qed.

(** (X13) The first run, on a file that is not there: the file is made,
    holds the one line [key=value], and the run reports [Added] with
    nothing asked or read. *)
Theorem first_run_creates_file path orig key value w :
  open_faults w !! path = None ->
  write_faults w !! path = None ->
  files w !! path = None ->
  AddOrUpdateEnvVarSecure U path orig key value w =
  ((true, false, None),
   mkWorld (stdin w) (stdout w)
           (<[path := key ++ 61 :: value ++ [10]]> (files w))
           (open_faults w) (write_faults w) (map_seed w)
           (writes w ++ [(path, key ++ 61 :: value ++ [10])])).
Proof.
  intros Ho Hw Hf.
  rewrite (upsert_absent U path orig key value w ∅ _
             (readEnvFileToMap_absent _ _ Ho Hf)) by apply lookup_empty.
  rewrite writeEnvMap_unfold. cbn [map_seed set_files].
  assert (range_order (map_seed w)
            (map_to_list (<[key := value]> (∅ : gmap (list N) (list N))))
          = [(key, value)]) as ->.
  { apply Permutation_singleton_r.
    by rewrite range_order_Permutation, insert_empty, map_to_list_singleton. }
  unfold os.WriteFile. cbn [write_faults set_files]. rewrite Hw.
  assert (spec.file_text [(key, value)] = key ++ 61 :: value ++ [10]) as ->.
  { unfold spec.file_text, Sprintf_kv. simpl. by rewrite <- app_assoc. }
  unfold set_writes, set_files. simpl. by rewrite insert_insert_eq.
Qed.

(** (X14) A file that cannot be opened: the run returns the error, with
    neither flag, and leaves the world as it was, nothing printed, read,
    made or written. *)
Theorem failed_open_changes_nothing path orig key value w errno :
  open_faults w !! path = Some errno ->
  AddOrUpdateEnvVarSecure U path orig key value w
  = ((false, false, Some (ErrIO errno)), w).
Proof.
  intros Ho. unfold AddOrUpdateEnvVarSecure. io_unfold.
  by rewrite (readEnvFileToMap_fault _ _ _ Ho).
Qed.

(** (X15) A run touches no file but its own, whatever its outcome, and
    none of the faults. *)
Theorem upsert_touches_only_its_file path orig key value w p :
  p <> path ->
  files (snd (AddOrUpdateEnvVarSecure U path orig key value w)) !! p
  = files w !! p.
Proof.
  intros Hp.
  destruct (AddOrUpdateEnvVarSecure U path orig key value w)
    as [[[added updated] err] w'] eqn:Hrun.
  destruct (upsert_run _ _ _ _ _ _ _ _ _ Hrun) as (Hfiles & _).
  by apply Hfiles.
Qed.

(** (X16) When the input ends with the answer, the three attempts read
    the empty text: the update goes through exactly when the answer is
    [yes] and the value now stored is empty. *)
Theorem update_at_end_of_input path orig key value w m cur resp :
  fst (readEnvFileToMap path w) = (m, None) ->
  m !! key = Some cur ->
  bufio.ReadString 10 (stdin w) = (resp, []) ->
  (exists err w',
     AddOrUpdateEnvVarSecure U path orig key value w
     = ((false, true, err), w'))
  <-> strings.ToLower U (strings.TrimSpace resp) = go "yes" /\ cur = [].
Proof.
  intros Hl Hk Hr.
  destruct (upsert_present U path orig key value w m cur resp [] Hl Hk Hr)
    as (w1 & _ & ->).
  assert (cur ∈ map strings.TrimSpace (spec.read_lines maxAttempts [])
          <-> cur = []) as Hin.
  { change (map strings.TrimSpace (spec.read_lines maxAttempts []))
      with [@nil N; []; []].
    rewrite !elem_of_cons, elem_of_nil. tauto. }
  destruct (bool_decide (strings.ToLower U (strings.TrimSpace resp) = go "yes")
            && bool_decide
                 (cur ∈ map strings.TrimSpace (spec.read_lines maxAttempts [])))
    eqn:Hb.
  - apply andb_true_iff in Hb as [Hyes Hcur].
    apply bool_decide_eq_true in Hyes, Hcur. apply Hin in Hcur.
    destruct (writeEnvMap path (<[key := value]> m) w1) as [err w2].
    split; [done | eauto].
  - apply andb_false_iff in Hb. rewrite !bool_decide_eq_false in Hb.
    split; [by intros (err & w' & [=]) |].
    intros [Hyes Hcur]. apply Hin in Hcur. tauto.
Qed.

End ProtocolMore.

(** ** The store after a run *)

Section StoreAfter.

Variable U : unicode.CaseTables.

Implicit Types (w : World) (m : gmap (list N) (list N)).
Implicit Types (path key value cur orig : list N).




End StoreAfter.



(** ** The prompts and [main], again *)

Section PromptsMore.

Variable U : unicode.CaseTables.

Implicit Types (w : World) (validator : list N -> list N * option error).

Lemma spec_read_lines_S n input :
  spec.read_lines (S n) input
  = fst (bufio.ReadString 10 input)
    :: spec.read_lines n (snd (bufio.ReadString 10 input)).
Proof. simpl. by destruct (bufio.ReadString 10 input). Qed.

Lemma ReadString_app delim s line rest :
  bufio.ReadString delim s = (line, rest) -> s = line ++ rest.
Proof.
  revert line rest. induction s as [| c s IH]; intros line rest; simpl.
  - by intros [= <- <-].
  - destruct (c =? delim); [by intros [= <- <-] |].
    destruct (bufio.ReadString delim s) as [line' rest'].
    intros [= <- <-]. simpl. by rewrite (IH line' rest' eq_refl).
Qed.


(** (X17) Whatever the validator, a prompt returns only a value that the
    validator returned without error; it consumes the input from the
    front and changes nothing of the store. *)
Theorem prompt_returns_validated fuel p validator w v w' :
  promptValidInput fuel p validator w = (Some v, w') ->
  (exists x, validator x = (v, None))
  /\ (exists consumed, stdin w = consumed ++ stdin w')
  /\ spec.same_store w w'.
Proof.
  revert w. induction fuel as [| fuel IH]; intros w; [done |].
  cbn [promptValidInput]. io_unfold. cbn [stdin set_stdout].
  destruct (bufio.ReadString 10 (stdin w)) as [line rest] eqn:Hr.
  apply ReadString_app in Hr.
  destruct (validator (strings.TrimSpace line)) as [x [e |]] eqn:Ev.
  - intros Hrun. apply IH in Hrun as (Hv & [consumed Hc] & Hs).
    simpl in Hc. split; [done |]. split.
    + exists (line ++ consumed). by rewrite Hr, Hc, app_assoc.
    + eapply same_store_trans; [| exact Hs]. by repeat split.
  - intros [= <- <-]. split; [eauto |]. split; [by exists line |].
    by repeat split.
Qed.

(** (X18) At the end of the input a prompt reads the empty text: with a
    validator that rejects it, as the key normaliser does, the prompt
    never returns, however many rounds it is given. *)
Theorem prompt_never_returns_at_end_of_input fuel p validator w :
  snd (validator []) <> None ->
  stdin w = [] ->
  fst (promptValidInput fuel p validator w) = None.
Proof.
  intros Hrej. revert w. induction fuel as [| fuel IH]; intros w Hin; [done |].
  cbn [promptValidInput]. io_unfold. cbn [stdin set_stdout]. rewrite Hin.
  cbn [bufio.ReadString]. change (strings.TrimSpace []) with (@nil N).
  destruct (validator []) as [x [e |]]; [| done].
  by apply IH.
Qed.




End PromptsMore.

(** ** The confirmation, the key and the long line *)

Section Bounds.

Variable U : unicode.CaseTables.

Implicit Types (w : World) (cur orig : list N).

Lemma missed_S from n :
  spec.missed from (S n)
  = [EvEnterCurrent from maxAttempts; EvMismatch] ++ spec.missed (S from) n.
Proof. reflexivity. Qed.

(** The loop of the attempts prints a request and a mismatch for every
    line before the first that is the current value, and the request for
    that one; with no such line among those it may read, a request and a
    mismatch for each. *)
Lemma attempts_loop_dialogue left attempts cur w :
  match list_find (fun a => a = cur)
          (map strings.TrimSpace (spec.read_lines left (stdin w))) with
  | Some (i, _) =>
      fst (attempts_loop left attempts cur w) = true
      /\ stdout (snd (attempts_loop left attempts cur w))
         = stdout w ++ spec.missed attempts i
           ++ [EvEnterCurrent (attempts + i) maxAttempts]
  | None =>
      fst (attempts_loop left attempts cur w) = false
      /\ stdout (snd (attempts_loop left attempts cur w))
         = stdout w ++ spec.missed attempts left
  end.
Proof.
  revert attempts w. induction left as [| left IH]; intros attempts w.
  - simpl. split; [done |]. by rewrite app_nil_r.
  - cbn [attempts_loop]. rewrite spec_read_lines_S. io_unfold.
    cbn [stdin set_stdout].
    destruct (bufio.ReadString 10 (stdin w)) as [line rest] eqn:E.
    cbn [map list_find].
    destruct (decide (strings.TrimSpace line = cur)) as [Heq | Hne].
    + rewrite bool_decide_eq_true_2, decide_True by done.
      cbn [fst snd stdout set_stdin].
      split; [done |]. by rewrite Nat.add_0_r.
    + rewrite bool_decide_eq_false_2, decide_False by done.
      match goal with
      | |- context [attempts_loop left ?a cur ?w0] =>
          set (w1 := w0); specialize (IH a w1);
          change (stdin w1) with rest in IH;
          change (stdout w1)
            with ((stdout w ++ [EvEnterCurrent attempts maxAttempts])
                  ++ [EvMismatch]) in IH
      end.
      match goal with
      | |- context [prod_map S id <$> ?found] =>
          change (list_find (fun a => a = cur)
                    (map strings.TrimSpace (spec.read_lines left rest)))
            with found in IH;
          destruct found as [[i a] |]
      end; cbn [fmap option_fmap option_map prod_map fst snd];
        destruct IH as [-> ->]; (split; [done |]).
      * rewrite missed_S, <- !app_assoc. simpl.
        by rewrite Nat.add_succ_r.
      * rewrite missed_S, <- !app_assoc. done.
Qed.

(** (X22) The dialogue of the confirmation, from the lines that its
    reader returns: the question, always; after an answer other than
    [yes], the cancellation, and the result is [false]; after [yes], a
    request and a mismatch for each line before the first that is the
    current value, and the request for that one, the result [true]; and
    when none of the three lines after the answer is the current value,
    three requests and mismatches, numbered 1 to 3, and the refusal, the
    result [false]. *)
Theorem confirmation_dialogue orig cur w :
  let resp := fst (bufio.ReadString 10 (stdin w)) in
  let answers :=
    map strings.TrimSpace
        (spec.read_lines 3 (snd (bufio.ReadString 10 (stdin w)))) in
  let ok := fst (promptOverwriteConfirmation U orig cur w) in
  let printed := stdout (snd (promptOverwriteConfirmation U orig cur w)) in
  if bool_decide (strings.ToLower U (strings.TrimSpace resp) = go "yes") then
    match list_find (fun a => a = cur) answers with
    | Some (i, _) =>
        ok = true
        /\ printed = stdout w ++ [EvKeyExists orig] ++ spec.missed 1 i
                     ++ [EvEnterCurrent (S i) 3]
    | None =>
        ok = false
        /\ printed = stdout w ++ [EvKeyExists orig] ++ spec.missed 1 3
                     ++ [EvTooManyAttempts]
    end
  else
    ok = false /\ printed = stdout w ++ [EvKeyExists orig; EvCancel].
Proof.
  intros resp answers ok printed. subst resp answers ok printed.
  unfold promptOverwriteConfirmation. io_unfold. cbn [stdin set_stdout].
  destruct (bufio.ReadString 10 (stdin w)) as [resp rest] eqn:E.
  cbn [fst snd].
  destruct (decide (strings.ToLower U (strings.TrimSpace resp) = go "yes"))
    as [Hyes | Hno];
    [rewrite !(bool_decide_eq_true_2 _ Hyes)
    | rewrite !(bool_decide_eq_false_2 _ Hno)];
    cbn [negb fst snd stdout set_stdout set_stdin];
    [| by rewrite <- app_assoc].
  match goal with
  | |- context [attempts_loop maxAttempts 1 cur ?w0] =>
      pose proof (attempts_loop_dialogue maxAttempts 1 cur w0) as H;
      cbn [stdin set_stdin set_stdout stdout] in H;
      destruct (attempts_loop maxAttempts 1 cur w0) as [matched w1]
  end.
  change maxAttempts with 3%nat in *.
  destruct (list_find (fun a => a = cur)
              (map strings.TrimSpace (spec.read_lines 3 rest)))
    as [[i a] |]; cbn [fst snd] in H; destruct H as [-> H].
  - split; [done |]. cbn [snd]. rewrite H. by rewrite <- !app_assoc.
  - split; [done |]. cbn [snd stdout set_stdout]. rewrite H.
    by rewrite <- !app_assoc.
Qed.

(** (X23) A key of ASCII letters, underscores and spaces between them,
    not blank, is accepted. *)
Theorem normalize_accepts_ascii_words raw :
  strings.TrimSpace raw <> [] ->
  forallb spec.ascii_word_rune (strings.TrimSpace raw) = true ->
  snd (formatAndValidateKey U raw) = None.
Proof.
  intros Hne Hall.
  rewrite formatAndValidateKey_normalize. unfold spec.normalize.
  rewrite trim_TrimSpace.
  set (s := map (unicode.ToUpper U) _).
  assert (forallb spec.upper_or_underscore s = true) as ->.
  { subst s. rewrite map_map. apply forallb_forall. intros y Hy.
    apply in_map_iff in Hy as (c & <- & Hc).
    rewrite forallb_forall in Hall. apply Hall in Hc.
    unfold spec.ascii_word_rune in Hc.
    rewrite !orb_true_iff, !andb_true_iff, !N.leb_le, !N.eqb_eq in Hc.
    destruct (N.eqb_spec c 32) as [-> | H32]; [done |].
    unfold unicode.ToUpper, spec.upper_or_underscore.
    rewrite (proj2 (N.leb_le c 0x7F)) by lia.
    destruct ((97 <=? c) && (c <=? 122)) eqn:E.
    - apply andb_true_iff in E as [?%N.leb_le ?%N.leb_le].
      apply orb_true_iff. left.
      apply andb_true_iff. split; apply N.leb_le; lia.
    - rewrite orb_true_iff, andb_true_iff, !N.leb_le, N.eqb_eq.
      apply andb_false_iff in E. rewrite !N.leb_gt in E. lia. }
  assert (s <> []) as Hs.
  { subst s. destruct (strings.TrimSpace raw); [done | discriminate]. }
  rewrite (bool_decide_eq_false_2 _ Hs). simpl.
  by destruct (spec.ends_with_KEY s).
Qed.

Lemma raw_lines_typed_app ls rest :
  Forall (fun l => 10 ∉ l) ls ->
  bufio.raw_lines (spec.typed ls ++ rest) = ls ++ bufio.raw_lines rest.
Proof.
  unfold spec.typed. induction 1 as [| l ls Hl _ IH]; [done |].
  cbn [map concat]. rewrite <- !app_assoc. cbn [app].
  by rewrite bufio_facts.raw_lines_line, IH.
Qed.

(** (X24) A line that does not fit the line reader ends the load:
    [readEnvFileToMap] returns the entries of the lines before it and no
    error, and nothing of the file after them is read. *)
Theorem long_line_ends_the_load path w ls long rest :
  open_faults w !! path = None ->
  files w !! path = Some (spec.typed ls ++ long ++ 10 :: rest) ->
  Forall (fun l => 10 ∉ l) ls ->
  Forall (fun l => bufio.fits l = true) ls ->
  10 ∉ long ->
  bufio.fits long = false ->
  readEnvFileToMap path w = ((fold_left scan_line ls ∅, None), w).
Proof.
  intros Ho Hf Hnl Hfits Hlong Hnofit.
  rewrite (readEnvFileToMap_present _ _ _ Ho Hf). do 2 f_equal.
  unfold bufio.Lines.
  rewrite raw_lines_typed_app, bufio_facts.raw_lines_line by done.
  assert (bufio.while_fits (ls ++ long :: bufio.raw_lines rest) = ls) as ->.
  { clear -Hfits Hnofit. induction Hfits as [| l ls Hl _ IH]; simpl.
    - by rewrite Hnofit.
    - by rewrite Hl, IH. }
  apply fold_scan_line_dropCR.
Qed.

End Bounds.

(** ** The further properties on the example worlds *)

Ltac by_compute :=
  match goal with
  | |- ?P => refine (bool_decide_unpack P _); vm_compute; exact I
  end.



(** [" db password "] and its key. *)
Lemma normalize_idempotent_witness :
  formatAndValidateKey unicode.caseless (go "DB_PASSWORD_KEY")
  = (go "DB_PASSWORD_KEY", None).
Proof.
  apply (normalize_idempotent unicode.caseless (go " db password ")).
  vm_compute. reflexivity.
Defined.

(** A space, a tab and a space. *)
Lemma normalize_rejects_blank_witness :
  formatAndValidateKey unicode.caseless [32; 9; 32]
  = ([], Some ErrInvalidCharacters).
Proof.
  apply (normalize_rejects_blank unicode.caseless [32; 9; 32]).
  by_compute.
Defined.

(** The digit of ["db2"]. *)
Lemma normalize_rejects_ascii_symbol_witness :
  formatAndValidateKey unicode.caseless (go "db2")
  = ([], Some ErrInvalidCharacters).
Proof.
  apply (normalize_rejects_ascii_symbol unicode.caseless (go "db2") 50).
  - by_compute.
  - lia.
  - reflexivity.
  - lia.
  - lia.
  - lia.
Defined.

(** A tab in front and a carriage return behind. *)
Lemma surrounding_space_ignored_witness :
  formatAndValidateKey unicode.caseless ([32; 9] ++ go "db password" ++ [13])
  = formatAndValidateKey unicode.caseless (go "db password")
  /\ validateValue ([32; 9] ++ go "db password" ++ [13])
     = validateValue (go "db password").
Proof.
  apply (surrounding_space_ignored unicode.caseless [32; 9]
           (go "db password") [13]); by_compute.
Defined.

Lemma validated_value_fixed_witness :
  strings.TrimSpace (go "secret123") = go "secret123"
  /\ existsb spec.cyrillic_letter (go "secret123") = false
  /\ validateValue (go "secret123") = (go "secret123", None).
Proof.
  apply (validated_value_fixed (go " secret123 ") (go "secret123")).
  vm_compute. reflexivity.
Defined.

Lemma validate_accepts_ascii_witness :
  validateValue (go " a=b#1 ") = (strings.TrimSpace (go " a=b#1 "), None).
Proof.
  apply (validate_accepts_ascii (go " a=b#1 ")). by_compute.
Defined.


Lemma crlf_file_loads_alike_witness :
  fst (readEnvFileToMap (go ".env") examples.w_a3_crlf)
  = fst (readEnvFileToMap (go ".env") examples.w_a3).
Proof.
  apply (crlf_file_loads_alike (go ".env") examples.w_a3_crlf examples.w_a3
           examples.lines_a3).
  - vm_compute. reflexivity.
  - vm_compute. reflexivity.
  - vm_compute. reflexivity.
  - vm_compute. reflexivity.
  - by_compute.
  - by_compute.
Defined.



(** In [w_update] the key [C_KEY] is added, and is there at the next
    load. *)
Lemma upsert_then_load_witness :
  readEnvFileToMap (go ".env")
    (snd (AddOrUpdateEnvVarSecure unicode.caseless (go ".env") (go "c")
            (go "C_KEY") (go "3") examples.w_update))
  = ((<[go "C_KEY" := go "3"]> examples.m_ab, None),
     snd (AddOrUpdateEnvVarSecure unicode.caseless (go ".env") (go "c")
            (go "C_KEY") (go "3") examples.w_update)).
Proof.
  apply (upsert_then_load unicode.caseless (go ".env") (go "c") (go "C_KEY")
           (go "3") examples.w_update examples.m_ab examples.w_update
           true false).
  - vm_compute. reflexivity.
  - by_compute.
  - vm_compute. reflexivity.
  - vm_compute. reflexivity.
  - reflexivity.
Defined.

Lemma first_run_creates_file_witness :
  AddOrUpdateEnvVarSecure unicode.caseless (go ".env") (go "a") (go "A_KEY")
    (go "1") examples.w_fresh
  = ((true, false, None),
     mkWorld [] [] {[ go ".env" := spec.typed [go "A_KEY=1"] ]} ∅ ∅ []
             [(go ".env", spec.typed [go "A_KEY=1"])]).
Proof.
  apply (first_run_creates_file unicode.caseless (go ".env") (go "a")
           (go "A_KEY") (go "1") examples.w_fresh); reflexivity.
Defined.

Lemma failed_open_changes_nothing_witness :
  AddOrUpdateEnvVarSecure unicode.caseless (go ".env") (go "a") (go "A_KEY")
    (go "new") examples.w_locked
  = ((false, false, Some (ErrIO 13)), examples.w_locked).
Proof.
  apply (failed_open_changes_nothing unicode.caseless (go ".env") (go "a")
           (go "A_KEY") (go "new") examples.w_locked 13).
  vm_compute. reflexivity.
Defined.

Lemma upsert_touches_only_its_file_witness :
  files (snd (AddOrUpdateEnvVarSecure unicode.caseless (go ".env") (go "a")
                (go "A_KEY") (go "new") examples.w_two_files)) !! go "notes"
  = files examples.w_two_files !! go "notes".
Proof.
  apply (upsert_touches_only_its_file unicode.caseless (go ".env") (go "a")
           (go "A_KEY") (go "new") examples.w_two_files (go "notes")).
  discriminate.
Defined.

(** In [w_empty_value] the empty value is confirmed by the end of the
    input. *)
Lemma update_at_end_of_input_witness :
  (exists err w',
     AddOrUpdateEnvVarSecure unicode.caseless (go ".env") (go "a")
       (go "A_KEY") (go "new") examples.w_empty_value
     = ((false, true, err), w'))
  <-> strings.ToLower unicode.caseless (strings.TrimSpace (go "yes" ++ [10]))
      = go "yes" /\ @nil N = [].
Proof.
  apply (update_at_end_of_input unicode.caseless (go ".env") (go "a")
           (go "A_KEY") (go "new") examples.w_empty_value
           {[ go "A_KEY" := [] ]} [] (go "yes" ++ [10])).
  - vm_compute. reflexivity.
  - vm_compute. reflexivity.
  - vm_compute. reflexivity.
Defined.

Lemma prompt_returns_validated_witness :
  (exists x, validateValue x = (go "ok", None))
  /\ (exists consumed,
        stdin examples.w_values = consumed ++ go "yes")
  /\ spec.same_store examples.w_values
       (mkWorld (go "yes")
          (spec.reasked examples.cyrillic_lines ++ [EvPrompt PromptValue])
          ∅ ∅ ∅ [] []).
Proof.
  apply (prompt_returns_validated 3 PromptValue validateValue
           examples.w_values (go "ok")
           (mkWorld (go "yes")
              (spec.reasked examples.cyrillic_lines ++ [EvPrompt PromptValue])
              ∅ ∅ ∅ [] [])).
  vm_compute. reflexivity.
Defined.

(** The key prompt that would ask again, at the end of the input. *)
Lemma prompt_never_returns_at_end_of_input_witness :
  fst (promptValidInput 7 PromptKey (formatAndValidateKey unicode.caseless)
         examples.w_fresh) = None.
Proof.
  apply (prompt_never_returns_at_end_of_input 7 PromptKey
           (formatAndValidateKey unicode.caseless) examples.w_fresh).
  - discriminate.
  - reflexivity.
Defined.

Lemma load_save_load_witness :
  exists w1,
    writeEnvMap (go ".env") examples.m_ab examples.w_update = (None, w1)
    /\ readEnvFileToMap (go ".env") w1 = ((examples.m_ab, None), w1).
Proof.
  apply (load_save_load (go ".env") examples.w_update examples.m_ab
           examples.w_update).
  - vm_compute. reflexivity.
  - by_compute.
  - vm_compute. reflexivity.
Defined.

Lemma normalize_accepts_ascii_words_witness :
  snd (formatAndValidateKey unicode.caseless (go " db password ")) = None.
Proof.
  apply (normalize_accepts_ascii_words unicode.caseless (go " db password ")).
  - discriminate.
  - vm_compute. reflexivity.
Defined.

(** In [w_long] only the first line is read. *)
Lemma long_line_ends_the_load_witness :
  readEnvFileToMap (go ".env") examples.w_long
  = ((fold_left scan_line [go "A=1"] ∅, None), examples.w_long).
Proof.
  apply (long_line_ends_the_load (go ".env") examples.w_long [go "A=1"]
           examples.long_line (spec.typed [go "C=3"])).
  - apply lookup_empty.
  - apply lookup_singleton_eq.
  - by_compute.
  - by_compute.
  - by_compute.
  - vm_compute. reflexivity.
Defined.
